(** * gcplogtarget: the GCP log entry formatter

    A shallow embedding of [parseGCPLogsEntry]
    (component/loki/source/gcplog/internal/gcplogtarget/formatter.go)
    and of the library operations it calls, followed by the properties
    of the label pipeline and of the timestamp / line policy.

    Go strings and byte slices are byte sequences: a Go [string] is a
    Rocq [string] (a list of 8-bit characters) and [[]byte] is
    [list byte].  A [model.LabelSet] is a finite map from names to
    values.  A [map[string]string] field of the decoded entry is only
    ever ranged over, so it is kept as the list of its entries in the
    order the [range] loop visits them (Go leaves that order open; a
    statement quantified over the list covers every order). *)

From Stdlib Require Import Strings.String Strings.Ascii Strings.Byte.
From Stdlib Require Import ZArith NArith Bool List Lia Sorting.Sorted.
From stdpp Require Import base gmap strings list.

Import ListNotations.
Local Open Scope string_scope.

(** ** Results of fallible calls *)

Inductive result (A E : Type) : Type :=
| Ok (a : A)
| Err (e : E).

Arguments Ok {A E} a.
Arguments Err {A E} e.

(** ** Strings *)

Module strings.

(** [strings.HasPrefix(s, prefix)]. *)
Definition HasPrefix (s prefix : string) : bool := String.prefix prefix s.

End strings.

(** ** unicode/utf8 *)

Module utf8.

(** Continuation bytes lie in [locb, hicb] = [0x80, 0xBF]. *)
Definition between (lo hi b : nat) : bool := (lo <=? b)%nat && (b <=? hi)%nat.

Definition cont (b : nat) : bool := between 128 191 b.

(** [utf8.ValidString] on the byte values of the string: the starter
    byte fixes the size of the sequence and the range accepted for
    the second byte (the [first] and [acceptRanges] tables). *)
Fixpoint valid_bytes (bs : list nat) : bool :=
  match bs with
  | [] => true
  | b :: rest =>
      if (b <? 128)%nat then valid_bytes rest
      else if between 194 223 b then
        match rest with
        | c1 :: r => cont c1 && valid_bytes r
        | _ => false
        end
      else if between 224 239 b then
        match rest with
        | c1 :: c2 :: r =>
            (if (b =? 224)%nat then between 160 191 c1
             else if (b =? 237)%nat then between 128 159 c1
             else cont c1)
            && cont c2 && valid_bytes r
        | _ => false
        end
      else if between 240 244 b then
        match rest with
        | c1 :: c2 :: c3 :: r =>
            (if (b =? 240)%nat then between 144 191 c1
             else if (b =? 244)%nat then between 128 143 c1
             else cont c1)
            && cont c2 && cont c3 && valid_bytes r
        | _ => false
        end
      else false
  end.

Definition ValidString (s : string) : bool :=
  valid_bytes (List.map nat_of_ascii (list_ascii_of_string s)).

End utf8.

(** ** prometheus/common/model: label names, values and label sets *)

Module model.

Definition is_lower (b : nat) : bool := utf8.between 97 122 b.
Definition is_upper (b : nat) : bool := utf8.between 65 90 b.
Definition is_digit (b : nat) : bool := utf8.between 48 57 b.
Definition is_underscore (b : nat) : bool := (b =? 95)%nat.

(** The body of the loop of [LabelName.IsValid] at index [i].  The Go
    loop ranges over runes, and a byte above 0x7F only ever decodes
    to a rune above 0x7F, which the test rejects; on the strings the
    test accepts, runes are bytes and [i] is the byte offset. *)
Definition name_char_ok (first : bool) (b : nat) : bool :=
  is_lower b || is_upper b || is_underscore b || (is_digit b && negb first).

Fixpoint name_chars_ok (first : bool) (s : string) : bool :=
  match s with
  | EmptyString => true
  | String c rest => name_char_ok first (nat_of_ascii c) && name_chars_ok false rest
  end.

(** [LabelName.IsValid]: non-empty and matching
    [^[a-zA-Z_][a-zA-Z0-9_]*$]. *)
Definition LabelName_IsValid (ln : string) : bool :=
  match ln with
  | EmptyString => false
  | _ => name_chars_ok true ln
  end.

(** [LabelValue.IsValid]: the value is valid UTF-8. *)
Definition LabelValue_IsValid (lv : string) : bool := utf8.ValidString lv.

(** [LabelSet.Merge]: a fresh set holding the receiver's pairs, then
    overwritten with every pair of [other]. *)
Definition Merge (l other : gmap string string) : gmap string string :=
  other ∪ l.

End model.

(** ** prometheus/model/labels: label lists and the builder *)

Module labels.

Record Label : Type := mkLabel { Name : string; Value : string }.

Definition names (ls : list Label) : list string := List.map Name ls.

(** [contains(s, n)]: some label of [s] is named [n]. *)
Definition contains (s : list Label) (n : string) : bool :=
  existsb (fun l => String.eqb (Name l) n) s.

Definition contains_name (ns : list string) (n : string) : bool :=
  existsb (fun m => String.eqb m n) ns.

(** The builder: a base list, the names deleted from it, and the
    labels added or overwritten. *)
Record Builder : Type := mkBuilder {
  base : list Label;
  del : list string;
  add : list Label
}.

(** [NewBuilder(base)] (through [Reset]): empty-valued labels of the
    base count as deleted. *)
Definition NewBuilder (b : list Label) : Builder :=
  {| base := b;
     del := names (List.filter (fun l => String.eqb (Value l) "") b);
     add := [] |}.

(** [b.Del(n)]: drop [n] from the additions and record the deletion. *)
Definition Del (b : Builder) (n : string) : Builder :=
  {| base := base b;
     del := del b ++ [n];
     add := List.filter (fun a => negb (String.eqb (Name a) n)) (add b) |}.

(** The loop of [Set] over [b.add]: overwrite the first label named
    [n]; [None] when there is none. *)
Fixpoint overwrite (s : list Label) (n v : string) : option (list Label) :=
  match s with
  | [] => None
  | a :: rest =>
      if String.eqb (Name a) n then Some (mkLabel n v :: rest)
      else match overwrite rest n v with
           | Some rest' => Some (a :: rest')
           | None => None
           end
  end.

(** [b.Set(n, v)]: an empty value is a deletion ("Empty labels are
    the same as missing labels"). *)
Definition Set_ (b : Builder) (n v : string) : Builder :=
  if String.eqb v "" then Del b n
  else match overwrite (add b) n v with
       | Some add' => {| base := base b; del := del b; add := add' |}
       | None => {| base := base b; del := del b; add := add b ++ [mkLabel n v] |}
       end.

(** Insertion into a list sorted by name; [sort_by_name] stands for
    [slices.SortFunc(res, a.Name < b.Name)]. *)
Fixpoint insert_by_name (l : Label) (s : list Label) : list Label :=
  match s with
  | [] => [l]
  | h :: t => if String.leb (Name l) (Name h) then l :: s else h :: insert_by_name l t
  end.

Definition sort_by_name (s : list Label) : list Label :=
  List.fold_right insert_by_name [] s.

(** [b.Labels(nil)]. *)
Definition Labels (b : Builder) : list Label :=
  match del b, add b with
  | [], [] => base b
  | _, _ =>
      let res :=
        List.filter
          (fun l => negb (contains_name (del b) (Name l) || contains (add b) (Name l)))
          (base b) in
      match add b with
      | [] => res
      | _ => sort_by_name (res ++ add b)
      end
  end.

(** A name is cleared when the builder has it deleted and not added
    back; a builder is tidy when no empty value can reach its list. *)
Definition cleared (b : Builder) (n : string) : Prop :=
  In n (del b) /\ ~ In n (names (add b)).

Definition tidy (b : Builder) : Prop :=
  (forall l, In l (base b) -> Value l = "" -> In (Name l) (del b)) /\
  (forall a, In a (add b) -> Value a <> "").

(** The order of a label list: by name, bytewise. *)
Definition byName (a b : Label) : Prop := String.leb (Name a) (Name b) = true.

(** What the builder holds: the additions, and the labels of the base
    neither deleted nor overwritten. *)
Definition holds (b : Builder) (l : Label) : Prop :=
  In l (add b) \/
  (In l (base b) /\ ~ In (Name l) (del b) /\ ~ In (Name l) (names (add b))).

End labels.

(** ** time *)

Module time.

(** An instant: seconds and nanoseconds elapsed since
    January 1, year 1, 00:00:00 UTC (the zero [time.Time]). *)
Record Time : Type := mkTime { sec : Z; nsec : Z }.

(** [t.IsZero()]. *)
Definition IsZero (t : Time) : bool := (sec t =? 0)%Z && (nsec t =? 0)%Z.

End time.

(** ** The decoded entry and the formatted entry *)

Record GCPResource : Type := mkGCPResource {
  Type_ : string;
  ResourceLabels : list (string * string)
}.

Record GCPLogEntry : Type := mkGCPLogEntry {
  LogName : string;
  Resource : GCPResource;
  Timestamp : string;
  ReceiveTimestamp : string;
  Severity : string;
  Labels : list (string * string);
  TextPayload : string
}.

Module logproto.
Record Entry : Type := mkEntry { Timestamp : time.Time; Line : string }.
End logproto.

Module loki.
Record Entry : Type := mkEntry {
  Labels : gmap string string;
  Entry_ : logproto.Entry
}.
End loki.

(** The three errors [parseGCPLogsEntry] returns: the decoder's error as
    it is, [fmt.Errorf("invalid timestamp format: %w", err)], and
    [fmt.Errorf("no timestamp found in the log entry")].  An error of a
    library call is kept as its message. *)
Inductive error : Type :=
| UnmarshalError (msg : string)
| InvalidTimestampFormat (cause : string)
| NoTimestampFound.

(** ** What the formatter takes from outside this file

    The JSON decoder, the label-name converter of the push translation,
    the relabel engine, the RFC3339 parser and [strings.TrimSpace] are
    called, not defined, by formatter.go.  The decoder gives the maps of
    the entry in the order the [range] loops of that one call visit
    them; Go may visit them in another order on the next call. *)
Class Externals : Type := {
  relabel_Config : Type;
  json_Unmarshal : list byte -> result GCPLogEntry string;
  convertToLokiCompatibleLabel : string -> string;
  relabel_Process : list labels.Label -> list relabel_Config -> list labels.Label * bool;
  time_Parse_RFC3339 : string -> result time.Time string;
  strings_TrimSpace : string -> string
}.

(** ** parseGCPLogsEntry, stage by stage *)

Section Formatter.

Context {ext : Externals}.

(** Lines 60-73: the mandatory labels, then the resource labels and
    the entry labels, all internal. *)
Definition setResourceLabel (lbs : labels.Builder) (kv : string * string) : labels.Builder :=
  labels.Set_ lbs ("__gcp_resource_labels_" ++ convertToLokiCompatibleLabel (fst kv)) (snd kv).

Definition setEntryLabel (lbs : labels.Builder) (kv : string * string) : labels.Builder :=
  labels.Set_ lbs ("__gcp_labels_" ++ convertToLokiCompatibleLabel (fst kv)) (snd kv).

Definition assembleLabels (ge : GCPLogEntry) (otherInternal : list labels.Label)
  : labels.Builder :=
  let lbs := labels.NewBuilder otherInternal in
  let lbs := labels.Set_ lbs "__gcp_logname" (LogName ge) in
  let lbs := labels.Set_ lbs "__gcp_resource_type" (Type_ (Resource ge)) in
  let lbs := labels.Set_ lbs "__gcp_severity" (Severity ge) in
  let lbs := List.fold_left setResourceLabel (ResourceLabels (Resource ge)) lbs in
  List.fold_left setEntryLabel (Labels ge) lbs.

(** Lines 78-82: relabeling; the second result of [relabel.Process]
    is assigned to the blank identifier. *)
Definition relabelLabels (lbs : labels.Builder) (relabelConfig : list relabel_Config)
  : list labels.Label :=
  match relabelConfig with
  | _ :: _ => fst (relabel_Process (labels.Labels lbs) relabelConfig)
  | [] => labels.Labels lbs
  end.

(** Lines 86-96: one turn of the loop over the processed labels. *)
Definition keepLabel (acc : gmap string string) (lbl : labels.Label) : gmap string string :=
  if strings.HasPrefix (labels.Name lbl) "__" then acc
  else if negb (model.LabelName_IsValid (labels.Name lbl))
          || negb (model.LabelValue_IsValid (labels.Value lbl)) then acc
  else <[labels.Name lbl := labels.Value lbl]> acc.

(** The two tests of the loop as one: what a label must pass to
    enter the final set; and the validity test alone. *)
Definition exported (lbl : labels.Label) : bool :=
  negb (strings.HasPrefix (labels.Name lbl) "__")
  && model.LabelName_IsValid (labels.Name lbl)
  && model.LabelValue_IsValid (labels.Value lbl).

Definition wellFormed (lbl : labels.Label) : bool :=
  model.LabelName_IsValid (labels.Name lbl)
  && model.LabelValue_IsValid (labels.Value lbl).

(** Lines 85-99: the final label set, merged with the labels of the
    scrape config. *)
Definition finalLabels (processed : list labels.Label) (other : gmap string string)
  : gmap string string :=
  model.Merge (List.fold_left keepLabel processed ∅) other.

(** Lines 105-108: the string the timestamp is read from. *)
Definition selectedTimestamp (ge : GCPLogEntry) : string :=
  if String.eqb (Timestamp ge) "" then ReceiveTimestamp ge else Timestamp ge.

(** Lines 101, 104-118: the timestamp. *)
Definition resolveTimestamp (now : time.Time) (ge : GCPLogEntry)
    (useIncomingTimestamp : bool) : result time.Time error :=
  if useIncomingTimestamp then
    let tt := selectedTimestamp ge in
    match time_Parse_RFC3339 tt with
    | Err err => Err (InvalidTimestampFormat err)
    | Ok ts => if time.IsZero ts then Err NoTimestampFound else Ok ts
    end
  else Ok now.

(** Lines 102, 120-123: the line. *)
Definition selectLine (data : list byte) (ge : GCPLogEntry) (useFullLine : bool) : string :=
  if negb useFullLine && negb (String.eqb (strings_TrimSpace (TextPayload ge)) "")
  then TextPayload ge
  else string_of_list_byte data.

(** [parseGCPLogsEntry]; [now] is what [time.Now()] reads. *)
Definition parseGCPLogsEntry (now : time.Time) (data : list byte)
    (other : gmap string string) (otherInternal : list labels.Label)
    (useIncomingTimestamp useFullLine : bool)
    (relabelConfig : list relabel_Config) : result loki.Entry error :=
  match json_Unmarshal data with
  | Err err => Err (UnmarshalError err)
  | Ok ge =>
      let lbs := assembleLabels ge otherInternal in
      let processed := relabelLabels lbs relabelConfig in
      let labels := finalLabels processed other in
      match resolveTimestamp now ge useIncomingTimestamp with
      | Err err => Err err
      | Ok ts =>
          Ok (loki.mkEntry labels
                (logproto.mkEntry ts (selectLine data ge useFullLine)))
      end
  end.

End Formatter.

(** ** Concrete collaborators, to run the formatter on examples *)

Module Fixture.

Definition dquote : string := String (ascii_of_nat 34) EmptyString.

(** A JSON string literal without escapes. *)
Definition quoted (s : string) : string := dquote ++ s ++ dquote.

(** A JSON object with one member. *)
Definition object1 (k v : string) : string := "{" ++ quoted k ++ ":" ++ v ++ "}".

(** A JSON object with two members. *)
Definition object2 (k1 v1 k2 v2 : string) : string :=
  "{" ++ quoted k1 ++ ":" ++ v1 ++ "," ++ quoted k2 ++ ":" ++ v2 ++ "}".

Definition emptyEntry : GCPLogEntry :=
  mkGCPLogEntry "" (mkGCPResource "" []) "" "" "" [] "".

(** The documents the example decoder knows, each with the entry
    [json.Unmarshal] decodes it to (for the members of a JSON object
    decoded into a Go map, in one of the orders [range] may take). *)
Definition documents : list (string * GCPLogEntry) :=
  [ ("{}", emptyEntry);
    (object1 "textPayload" (quoted "hello"),
     mkGCPLogEntry "" (mkGCPResource "" []) "" "" "" [] "hello");
    (object1 "textPayload" (quoted "   "),
     mkGCPLogEntry "" (mkGCPResource "" []) "" "" "" [] "   ");
    (object1 "receiveTimestamp" (quoted "2024-01-01T00:00:00Z"),
     mkGCPLogEntry "" (mkGCPResource "" []) "" "2024-01-01T00:00:00Z" "" [] "");
    (object1 "timestamp" (quoted "0001-01-01T00:00:00Z"),
     mkGCPLogEntry "" (mkGCPResource "" []) "0001-01-01T00:00:00Z" "" "" [] "");
    (object2 "logName" (quoted "projects/p/logs/syslog") "severity" (quoted "INFO"),
     mkGCPLogEntry "projects/p/logs/syslog" (mkGCPResource "" []) "" "" "INFO" [] "");
    (object1 "resource"
       (object1 "labels" (object2 "a.b" (quoted "") "a_b" (quoted "x"))),
     mkGCPLogEntry "" (mkGCPResource "" [("a.b", ""); ("a_b", "x")]) "" "" "" [] "");
    (object1 "resource"
       (object1 "labels" (object2 "zone/a" (quoted "") "b" (quoted "x"))),
     mkGCPLogEntry "" (mkGCPResource "" [("zone/a", ""); ("b", "x")]) "" "" "" [] "") ].

Fixpoint lookupDocument (tbl : list (string * GCPLogEntry)) (s : string)
  : result GCPLogEntry string :=
  match tbl with
  | [] => Err "unknown document"
  | (doc, ge) :: rest => if String.eqb doc s then Ok ge else lookupDocument rest s
  end.

Definition Unmarshal (data : list byte) : result GCPLogEntry string :=
  lookupDocument documents (string_of_list_byte data).

Definition bytes (s : string) : list byte := list_byte_of_string s.

(** Modelled from the spec: [convertToLokiCompatibleLabel] is defined
    in another file of the package; the spec gives the rule "replace
    every character outside [A-Za-z0-9_] with _". *)
Definition sanitizeChar (c : ascii) : ascii :=
  let b := nat_of_ascii c in
  if model.is_lower b || model.is_upper b || model.is_digit b || model.is_underscore b
  then c else "_"%char.

Fixpoint sanitize (s : string) : string :=
  match s with
  | EmptyString => EmptyString
  | String c rest => String (sanitizeChar c) (sanitize rest)
  end.

(** Three relabel rules with the defaults of [relabel.Config]:
    [{action: drop}] and [{action: keep}] with the default regex,
    which matches every record, and
    [{action: replace, source_labels: [s], target_label: t}], which
    copies the value of [s] to [t]. *)
Inductive rule : Type :=
| DropAll
| KeepAll
| Copy (source target : string).

Definition get (ls : list labels.Label) (n : string) : string :=
  match List.find (fun l => String.eqb (labels.Name l) n) ls with
  | Some l => labels.Value l
  | None => ""
  end.

(** One rule on the builder; [None] is the drop. *)
Definition relabel (lb : labels.Builder) (r : rule) : option labels.Builder :=
  match r with
  | DropAll => None
  | KeepAll => Some lb
  | Copy s t => Some (labels.Set_ lb t (get (labels.Labels lb) s))
  end.

Fixpoint processBuilder (lb : labels.Builder) (rs : list rule) : option labels.Builder :=
  match rs with
  | [] => Some lb
  | r :: rest =>
      match relabel lb r with
      | None => None
      | Some lb' => processBuilder lb' rest
      end
  end.

(** [relabel.Process]: the relabeled list and [true], or [nil] and
    [false] when a rule drops the record. *)
Definition Process (lbls : list labels.Label) (rs : list rule)
  : list labels.Label * bool :=
  match processBuilder (labels.NewBuilder lbls) rs with
  | None => ([], false)
  | Some lb => (labels.Labels lb, true)
  end.

(** A reader of [YYYY-MM-DDTHH:MM:SSZ], the UTC form of RFC3339
    without fraction; enough for the examples. *)
Definition digit (c : ascii) : option Z :=
  let b := nat_of_ascii c in
  if model.is_digit b then Some (Z.of_nat b - 48)%Z else None.

Definition num2 (a b : ascii) : option Z :=
  match digit a, digit b with
  | Some x, Some y => Some (10 * x + y)%Z
  | _, _ => None
  end.

Definition num4 (a b c d : ascii) : option Z :=
  match num2 a b, num2 c d with
  | Some x, Some y => Some (100 * x + y)%Z
  | _, _ => None
  end.

Definition isLeap (y : Z) : bool :=
  ((y mod 4 =? 0) && (negb (y mod 100 =? 0) || (y mod 400 =? 0)))%Z.

Definition daysIn (y m : Z) : Z :=
  (if m =? 2 then (if isLeap y then 29 else 28)
   else if (m =? 4) || (m =? 6) || (m =? 9) || (m =? 11) then 30 else 31)%Z.

Fixpoint daysBefore (y : Z) (m : nat) : Z :=
  match m with
  | O => 0
  | S m' => (daysBefore y m' + daysIn y (Z.of_nat m))%Z
  end.

(** Days from January 1, year 1 to the given date. *)
Definition daysSinceZero (y m d : Z) : Z :=
  (let y' := y - 1 in
   365 * y' + y' / 4 - y' / 100 + y' / 400 + daysBefore y (Z.to_nat (m - 1)) + (d - 1))%Z.

Definition fromFields (y mo d h mi s : Z) : result time.Time string :=
  if ((1 <=? mo) && (mo <=? 12) && (1 <=? d) && (d <=? daysIn y mo)
      && (h <? 24) && (mi <? 60) && (s <? 60))%Z
  then Ok (time.mkTime (daysSinceZero y mo d * 86400 + h * 3600 + mi * 60 + s) 0)
  else Err "parsing time: out of range".

Definition Parse (s : string) : result time.Time string :=
  match list_ascii_of_string s with
  | [y1; y2; y3; y4; "-"; m1; m2; "-"; d1; d2; "T"; h1; h2; ":"; i1; i2; ":"; s1; s2; "Z"]%char =>
      match num4 y1 y2 y3 y4, num2 m1 m2, num2 d1 d2, num2 h1 h2, num2 i1 i2, num2 s1 s2 with
      | Some y, Some mo, Some d, Some h, Some mi, Some se => fromFields y mo d h mi se
      | _, _, _, _, _, _ => Err "parsing time: cannot parse"
      end
  | _ => Err "parsing time: cannot parse"
  end.

(** [strings.TrimSpace] on ASCII text: the six ASCII white-space
    bytes are cut from both ends. *)
Definition asciiSpace (c : ascii) : bool :=
  let b := nat_of_ascii c in utf8.between 9 13 b || (b =? 32)%nat.

Fixpoint trimLeft (s : list ascii) : list ascii :=
  match s with
  | c :: rest => if asciiSpace c then trimLeft rest else s
  | [] => []
  end.

Definition TrimSpace (s : string) : string :=
  string_of_list_ascii
    (List.rev (trimLeft (List.rev (trimLeft (list_ascii_of_string s))))).

Definition ext : Externals :=
  {| relabel_Config := rule;
     json_Unmarshal := Unmarshal;
     convertToLokiCompatibleLabel := sanitize;
     relabel_Process := Process;
     time_Parse_RFC3339 := Parse;
     strings_TrimSpace := TrimSpace |}.

(** A clock reading for the examples. *)
Definition now : time.Time := time.mkTime 63839664000 500.

End Fixture.

(** More documents for the examples, read by the same collaborators. *)

Module Samples.

Definition documents : list (string * GCPLogEntry) :=
  [ (Fixture.object2 "timestamp" (Fixture.quoted "yesterday")
       "receiveTimestamp" (Fixture.quoted "2024-01-01T00:00:00Z"),
     mkGCPLogEntry "" (mkGCPResource "" []) "yesterday" "2024-01-01T00:00:00Z" "" [] "");
    (Fixture.object2 "timestamp" (Fixture.quoted "2024-01-01T00:00:00Z")
       "receiveTimestamp" (Fixture.quoted "2023-01-01T00:00:00Z"),
     mkGCPLogEntry "" (mkGCPResource "" [])
       "2024-01-01T00:00:00Z" "2023-01-01T00:00:00Z" "" [] "");
    (Fixture.object1 "labels" (Fixture.object1 "k8s-pod/app" (Fixture.quoted "web")),
     mkGCPLogEntry "" (mkGCPResource "" []) "" "" "" [("k8s-pod/app", "web")] "");
    (Fixture.object1 "resource"
       (Fixture.object2 "type" (Fixture.quoted "gce_instance")
          "labels" (Fixture.object1 "zone" (Fixture.quoted "us-1"))),
     mkGCPLogEntry "" (mkGCPResource "gce_instance" [("zone", "us-1")]) "" "" "" [] "") ].

Definition Unmarshal (data : list byte) : result GCPLogEntry string :=
  Fixture.lookupDocument (documents ++ Fixture.documents) (string_of_list_byte data).

Definition ext : Externals :=
  {| relabel_Config := Fixture.rule;
     json_Unmarshal := Unmarshal;
     convertToLokiCompatibleLabel := Fixture.sanitize;
     relabel_Process := Fixture.Process;
     time_Parse_RFC3339 := Fixture.Parse;
     strings_TrimSpace := Fixture.TrimSpace |}.

(** The same collaborators with another relabel engine, one that drops
    every record it is given. *)
Definition dropping : Externals :=
  {| relabel_Config := unit;
     json_Unmarshal := Fixture.Unmarshal;
     convertToLokiCompatibleLabel := Fixture.sanitize;
     relabel_Process := fun _ _ => ([], false);
     time_Parse_RFC3339 := Fixture.Parse;
     strings_TrimSpace := Fixture.TrimSpace |}.

Definition invalidTimestamp : list byte :=
  Fixture.bytes
    (Fixture.object2 "timestamp" (Fixture.quoted "yesterday")
       "receiveTimestamp" (Fixture.quoted "2024-01-01T00:00:00Z")).

Definition bothTimestamps : list byte :=
  Fixture.bytes
    (Fixture.object2 "timestamp" (Fixture.quoted "2024-01-01T00:00:00Z")
       "receiveTimestamp" (Fixture.quoted "2023-01-01T00:00:00Z")).

Definition entryLabel : list byte :=
  Fixture.bytes
    (Fixture.object1 "labels" (Fixture.object1 "k8s-pod/app" (Fixture.quoted "web"))).

Definition resource : list byte :=
  Fixture.bytes
    (Fixture.object1 "resource"
       (Fixture.object2 "type" (Fixture.quoted "gce_instance")
          "labels" (Fixture.object1 "zone" (Fixture.quoted "us-1")))).

Definition logNameSeverity : list byte :=
  Fixture.bytes
    (Fixture.object2 "logName" (Fixture.quoted "projects/p/logs/syslog")
       "severity" (Fixture.quoted "INFO")).

End Samples.

(** ** Where an assembled label comes from *)

Section Origin.

Context {ext : Externals}.

(** The labels the assembler can set for an entry: one per mandatory
    field, one per entry of each map. *)
Definition fromEntry (ge : GCPLogEntry) (a : labels.Label) : Prop :=
  a = labels.mkLabel "__gcp_logname" (LogName ge) \/
  a = labels.mkLabel "__gcp_resource_type" (Type_ (Resource ge)) \/
  a = labels.mkLabel "__gcp_severity" (Severity ge) \/
  (exists k, In (k, labels.Value a) (ResourceLabels (Resource ge)) /\
             labels.Name a = "__gcp_resource_labels_" ++ convertToLokiCompatibleLabel k) \/
  (exists k, In (k, labels.Value a) (Labels ge) /\
             labels.Name a = "__gcp_labels_" ++ convertToLokiCompatibleLabel k).

End Origin.

(** * Properties *)

(** ** The label builder and the label assembler *)

Section Builder.

Import labels.

Lemma contains_name_In ns n : contains_name ns n = true <-> In n ns.
Proof.
  unfold contains_name. rewrite existsb_exists. split.
  - intros (m & Hin & Heq). apply String.eqb_eq in Heq. now subst.
  - intros Hin. exists n. split; [assumption | apply String.eqb_refl].
Qed.

Lemma contains_In s n : contains s n = true <-> In n (names s).
Proof.
  unfold contains, names. rewrite existsb_exists, in_map_iff. split.
  - intros (l & Hin & Heq). apply String.eqb_eq in Heq. eauto.
  - intros (l & Heq & Hin). exists l. split; [assumption|].
    now apply String.eqb_eq.
Qed.

Lemma insert_by_name_In x l s : In x (insert_by_name l s) <-> x = l \/ In x s.
Proof.
  induction s as [|h t IH]; simpl.
  - intuition.
  - destruct (String.leb (Name l) (Name h)); simpl; [intuition|].
    rewrite IH. intuition.
Qed.

Lemma sort_by_name_In x s : In x (sort_by_name s) <-> In x s.
Proof.
  induction s as [|h t IH]; simpl; [reflexivity|].
  rewrite insert_by_name_In, IH. intuition.
Qed.

(** The built list has the labels the builder holds, no other. *)
Lemma Labels_In b l : In l (Labels b) <-> holds b l.
Proof.
  unfold Labels, holds.
  set (res := List.filter _ (base b)).
  assert (Hres : In l res <->
                 In l (base b) /\ ~ In (Name l) (del b) /\ ~ In (Name l) (names (add b))).
  { unfold res. rewrite filter_In, negb_true_iff, orb_false_iff.
    rewrite <- !not_true_iff_false, contains_name_In, contains_In. tauto. }
  assert (Hsort : In l (sort_by_name (res ++ add b)) <-> In l (add b) \/ In l res).
  { rewrite sort_by_name_In, in_app_iff. tauto. }
  destruct (del b) as [|d ds] eqn:Hdel; destruct (add b) as [|a rest] eqn:Hadd.
  - simpl. tauto.
  - rewrite Hsort, Hres. tauto.
  - rewrite Hres. simpl. tauto.
  - rewrite Hsort, Hres. tauto.
Qed.

Lemma cleared_absent b n : cleared b n -> ~ In n (names (Labels b)).
Proof.
  intros [Hdel Hadd] Hin.
  apply in_map_iff in Hin as (l & <- & Hin).
  apply Labels_In in Hin as [Hin | (_ & Hnd & _)]; [|contradiction].
  apply Hadd. now apply in_map.
Qed.

Lemma tidy_no_empty_value b l : tidy b -> In l (Labels b) -> Value l <> "".
Proof.
  intros [Hbase Hadd] Hin Hempty.
  apply Labels_In in Hin as [Hin | (Hin & Hnd & _)].
  - now apply (Hadd l).
  - apply Hnd. now apply Hbase.
Qed.

Lemma overwrite_Some s n v s' :
  overwrite s n v = Some s' ->
  names s' = names s /\ (forall a, In a s' -> a = mkLabel n v \/ In a s).
Proof.
  revert s'. induction s as [|h t IH]; intros s' H; simpl in H; [discriminate|].
  destruct (String.eqb (Name h) n) eqn:Heq.
  - injection H as <-. apply String.eqb_eq in Heq. simpl. split.
    + now rewrite Heq.
    + intros a [<- | Hin]; auto.
  - destruct (overwrite t n v) as [t'|]; [|discriminate].
    injection H as <-. destruct (IH t' eq_refl) as [Hn Hin]. simpl. split.
    + now rewrite Hn.
    + intros a [<- | Ha]; [auto|]. destruct (Hin a Ha); auto.
Qed.

Lemma Del_names_add b n m : In m (names (add (Del b n))) -> In m (names (add b)) /\ m <> n.
Proof.
  unfold Del, names. simpl. rewrite !in_map_iff.
  intros (a & <- & Hin). apply filter_In in Hin as [Hin Hf]. split.
  - eauto.
  - apply negb_true_iff in Hf. now apply String.eqb_neq.
Qed.

Lemma Set_del b n v m : In m (del b) -> In m (del (Set_ b n v)).
Proof.
  intros Hin. unfold Set_.
  destruct (String.eqb v ""); [simpl; apply in_or_app; now left|].
  destruct (overwrite (add b) n v); assumption.
Qed.

Lemma Set_names_add b n v m :
  In m (names (add (Set_ b n v))) -> In m (names (add b)) \/ (m = n /\ v <> "").
Proof.
  unfold Set_. destruct (String.eqb v "") eqn:Hv.
  - intros Hin. apply Del_names_add in Hin. left. tauto.
  - apply String.eqb_neq in Hv.
    destruct (overwrite (add b) n v) as [add'|] eqn:Ho; simpl.
    + apply overwrite_Some in Ho as [-> _]. now left.
    + unfold names. rewrite map_app, in_app_iff. simpl.
      intros [Hin | [<- | []]]; [now left | now right].
Qed.

Lemma Set_empty_cleared b n : cleared (Set_ b n "") n.
Proof.
  unfold Set_. simpl. split.
  - simpl. apply in_or_app. right. now left.
  - intros Hin. apply Del_names_add in Hin. tauto.
Qed.

(** A later [Set] keeps a name cleared unless it gives that very name
    a value. *)
Lemma Set_keeps_cleared b n m v :
  (m = n -> v = "") -> cleared b n -> cleared (Set_ b m v) n.
Proof.
  intros Hmv [Hdel Hadd]. split.
  - now apply Set_del.
  - intros Hin. apply Set_names_add in Hin as [Hin | [Heq Hv]]; [contradiction|].
    apply Hv, Hmv. now symmetry.
Qed.

Lemma NewBuilder_tidy ls : tidy (NewBuilder ls).
Proof.
  split; simpl; [|contradiction].
  intros l Hin Hv. unfold names. apply in_map. apply filter_In.
  split; [assumption | now apply String.eqb_eq].
Qed.

Lemma Set_tidy b n v : tidy b -> tidy (Set_ b n v).
Proof.
  intros [Hbase Hadd]. split.
  - intros l Hin Hv. apply Set_del.
    apply Hbase; [|assumption].
    revert Hin. unfold Set_. destruct (String.eqb v ""); [trivial|].
    destruct (overwrite (add b) n v); trivial.
  - unfold Set_. destruct (String.eqb v "") eqn:Hv.
    + simpl. intros a Hin. apply filter_In in Hin as [Hin _]. now apply Hadd.
    + apply String.eqb_neq in Hv.
      destruct (overwrite (add b) n v) as [add'|] eqn:Ho; simpl.
      * apply overwrite_Some in Ho as [_ Ho].
        intros a Hin. destruct (Ho a Hin) as [-> | Ha]; [assumption | now apply Hadd].
      * intros a Hin. apply in_app_or in Hin as [Hin | [<- | []]];
          [now apply Hadd | assumption].
Qed.

(** The additions never hold a name twice, so the loop of [Del] has
    one label to remove at most. *)
Lemma overwrite_None s n v : overwrite s n v = None -> ~ In n (names s).
Proof.
  induction s as [|h t IH]; simpl; [tauto|].
  destruct (String.eqb (Name h) n) eqn:Heq; [discriminate|].
  destruct (overwrite t n v); [discriminate|].
  intros _ [Hh | Ht]; [|now apply IH].
  apply String.eqb_neq in Heq. contradiction.
Qed.

Lemma filter_names_NoDup (f : Label -> bool) s :
  List.NoDup (names s) -> List.NoDup (names (List.filter f s)).
Proof.
  unfold names. induction s as [|h t IH]; simpl; [trivial|].
  intros Hnd. apply List.NoDup_cons_iff in Hnd as [Hh Ht].
  destruct (f h); simpl; [|now apply IH].
  apply List.NoDup_cons_iff. split; [|now apply IH].
  intros Hin. apply Hh.
  apply in_map_iff in Hin as (a & Ha & Hin). apply filter_In in Hin as [Hin _].
  apply in_map_iff. eauto.
Qed.

Lemma Set_add_NoDup b n v :
  List.NoDup (names (add b)) -> List.NoDup (names (add (Set_ b n v))).
Proof.
  intros Hnd. unfold Set_. destruct (String.eqb v "").
  - simpl. now apply filter_names_NoDup.
  - destruct (overwrite (add b) n v) as [add'|] eqn:Ho; simpl.
    + apply overwrite_Some in Ho as [-> _]. assumption.
    + apply overwrite_None in Ho.
      unfold names in *. rewrite map_app. simpl.
      apply List.NoDup_app; [assumption | |].
      * apply List.NoDup_cons; [simpl; tauto | apply List.NoDup_nil].
      * intros x Hx [<- | []]. contradiction.
Qed.

(** The order on names is a total preorder. *)
Lemma compare_not_Gt_trans (a : string) : forall b c,
  String.compare a b <> Gt -> String.compare b c <> Gt -> String.compare a c <> Gt.
Proof.
  induction a as [|x a IH]; intros [|y b] [|z c]; simpl; try congruence.
  unfold Ascii.compare.
  destruct (N.compare_spec (N_of_ascii x) (N_of_ascii y)) as [Hxy|Hxy|Hxy];
    destruct (N.compare_spec (N_of_ascii y) (N_of_ascii z)) as [Hyz|Hyz|Hyz];
    try congruence.
  - rewrite Hxy, Hyz, N.compare_refl. apply IH.
  - intros _ _. rewrite Hxy. apply N.compare_lt_iff in Hyz. now rewrite Hyz.
  - intros _ _. rewrite <- Hyz. apply N.compare_lt_iff in Hxy. now rewrite Hxy.
  - intros _ _. assert (H : (N_of_ascii x < N_of_ascii z)%N) by lia.
    apply N.compare_lt_iff in H. now rewrite H.
Qed.

Lemma byName_trans a b c : byName a b -> byName b c -> byName a c.
Proof.
  unfold byName, String.leb. intros Hab Hbc.
  pose proof (compare_not_Gt_trans (Name a) (Name b) (Name c)) as H.
  destruct (String.compare (Name a) (Name b));
    destruct (String.compare (Name b) (Name c));
    destruct (String.compare (Name a) (Name c));
    try reflexivity; try discriminate; exfalso; apply H; congruence.
Qed.

Lemma byName_total a b : String.leb (Name a) (Name b) = false -> byName b a.
Proof.
  intros H. unfold byName.
  destruct (String.leb_total (Name a) (Name b)); congruence.
Qed.

Lemma insert_by_name_HdRel x l s :
  byName x l -> HdRel byName x s -> HdRel byName x (insert_by_name l s).
Proof.
  intros Hxl Hxs. destruct s as [|h t]; simpl; [now constructor|].
  destruct (String.leb (Name l) (Name h)); constructor; [assumption|].
  now inversion Hxs.
Qed.

Lemma insert_by_name_Sorted l s : Sorted byName s -> Sorted byName (insert_by_name l s).
Proof.
  induction s as [|h t IH]; simpl; intros Hs.
  - repeat constructor.
  - inversion Hs as [|? ? Ht Hh]; subst.
    destruct (String.leb (Name l) (Name h)) eqn:Hle.
    + constructor; [assumption | now constructor].
    + constructor; [now apply IH|].
      apply insert_by_name_HdRel; [now apply byName_total | assumption].
Qed.

Lemma sort_by_name_Sorted s : Sorted byName (sort_by_name s).
Proof.
  induction s as [|h t IH]; simpl; [constructor | now apply insert_by_name_Sorted].
Qed.

Lemma filter_Sorted (f : Label -> bool) s : Sorted byName s -> Sorted byName (List.filter f s).
Proof.
  intros Hs. apply StronglySorted_Sorted.
  apply Sorted_StronglySorted in Hs; [|intros a b c; apply byName_trans].
  induction Hs as [|h t Ht IH Hh]; simpl; [constructor|].
  destruct (f h); [|assumption].
  constructor; [assumption|].
  rewrite List.Forall_forall in *. intros x Hx. apply filter_In in Hx as [Hx _]. auto.
Qed.

(** From a sorted base the builder makes a sorted list. *)
Lemma Labels_Sorted b : Sorted byName (base b) -> Sorted byName (Labels b).
Proof.
  intros Hs. unfold Labels.
  destruct (del b); destruct (add b);
    auto using filter_Sorted, sort_by_name_Sorted.
Qed.

End Builder.

Section Assembler.

Context {ext : Externals}.

Lemma append_cancel_l (p x y : string) : (p ++ x = p ++ y)%string -> x = y.
Proof.
  induction p as [|c p IH]; simpl; [trivial|].
  intros [= H]. now apply IH.
Qed.

Lemma fold_setResourceLabel_tidy l : forall b, labels.tidy b -> labels.tidy (List.fold_left setResourceLabel l b).
Proof.
  induction l as [|kv l IH]; intros b Hb; simpl; [assumption|].
  apply IH, Set_tidy, Hb.
Qed.

Lemma fold_setEntryLabel_tidy l : forall b, labels.tidy b -> labels.tidy (List.fold_left setEntryLabel l b).
Proof.
  induction l as [|kv l IH]; intros b Hb; simpl; [assumption|].
  apply IH, Set_tidy, Hb.
Qed.

Lemma assembleLabels_tidy ge otherInternal : labels.tidy (assembleLabels ge otherInternal).
Proof.
  unfold assembleLabels.
  apply fold_setEntryLabel_tidy, fold_setResourceLabel_tidy.
  repeat apply Set_tidy. apply NewBuilder_tidy.
Qed.

(** The loops keep a name cleared as long as no entry gives it a
    value. *)
Lemma fold_setResourceLabel_cleared n l : forall b,
  (forall k v, In (k, v) l ->
     ("__gcp_resource_labels_" ++ convertToLokiCompatibleLabel k)%string = n -> v = "") ->
  labels.cleared b n -> labels.cleared (List.fold_left setResourceLabel l b) n.
Proof.
  induction l as [|[k v] l IH]; intros b Hl Hb; simpl; [assumption|].
  apply IH.
  - intros k' v' Hin. apply Hl. now right.
  - apply Set_keeps_cleared; [|assumption]. simpl. apply Hl. now left.
Qed.

Lemma fold_setEntryLabel_cleared n l : forall b,
  (forall k v, In (k, v) l ->
     ("__gcp_labels_" ++ convertToLokiCompatibleLabel k)%string = n -> v = "") ->
  labels.cleared b n -> labels.cleared (List.fold_left setEntryLabel l b) n.
Proof.
  induction l as [|[k v] l IH]; intros b Hl Hb; simpl; [assumption|].
  apply IH.
  - intros k' v' Hin. apply Hl. now right.
  - apply Set_keeps_cleared; [|assumption]. simpl. apply Hl. now left.
Qed.

(** C10, corrected: an empty logName, resource type or severity
    leaves no label of its name in the list handed to the relabel
    engine, whatever the base labels held under that name; so does an
    empty-valued entry of resourceLabels or of labels, provided no
    entry visited after it in the same map gives a value to the same
    converted name; and no label of that list has an empty value. *)
Theorem empty_values_leave_no_label ge otherInternal :
  let handed := labels.Labels (assembleLabels ge otherInternal) in
  (LogName ge = "" -> ~ In "__gcp_logname" (labels.names handed)) /\
  (Type_ (Resource ge) = "" -> ~ In "__gcp_resource_type" (labels.names handed)) /\
  (Severity ge = "" -> ~ In "__gcp_severity" (labels.names handed)) /\
  (forall before k after,
     ResourceLabels (Resource ge) = (before ++ (k, "") :: after)%list ->
     (forall k' v', In (k', v') after ->
        convertToLokiCompatibleLabel k' = convertToLokiCompatibleLabel k -> v' = "") ->
     ~ In ("__gcp_resource_labels_" ++ convertToLokiCompatibleLabel k)%string
          (labels.names handed)) /\
  (forall before k after,
     Labels ge = (before ++ (k, "") :: after)%list ->
     (forall k' v', In (k', v') after ->
        convertToLokiCompatibleLabel k' = convertToLokiCompatibleLabel k -> v' = "") ->
     ~ In ("__gcp_labels_" ++ convertToLokiCompatibleLabel k)%string
          (labels.names handed)) /\
  (forall l, In l handed -> labels.Value l <> "").
Proof.
  intros handed. subst handed. unfold assembleLabels.
  repeat split.
  - intros Hempty. apply cleared_absent.
    apply fold_setEntryLabel_cleared; [intros k v _; discriminate|].
    apply fold_setResourceLabel_cleared; [intros k v _; discriminate|].
    do 2 (apply Set_keeps_cleared; [discriminate|]).
    rewrite Hempty. apply Set_empty_cleared.
  - intros Hempty. apply cleared_absent.
    apply fold_setEntryLabel_cleared; [intros k v _; discriminate|].
    apply fold_setResourceLabel_cleared; [intros k v _; discriminate|].
    apply Set_keeps_cleared; [discriminate|].
    rewrite Hempty. apply Set_empty_cleared.
  - intros Hempty. apply cleared_absent.
    apply fold_setEntryLabel_cleared; [intros k v _; discriminate|].
    apply fold_setResourceLabel_cleared; [intros k v _; discriminate|].
    rewrite Hempty. apply Set_empty_cleared.
  - intros before k after Hsplit Hafter. apply cleared_absent.
    apply fold_setEntryLabel_cleared; [intros k' v' _; discriminate|].
    rewrite Hsplit, fold_left_app. simpl.
    apply fold_setResourceLabel_cleared.
    + intros k' v' Hin Heq. apply append_cancel_l in Heq. eauto.
    + apply Set_empty_cleared.
  - intros before k after Hsplit Hafter. apply cleared_absent.
    rewrite Hsplit, fold_left_app. simpl.
    apply fold_setEntryLabel_cleared.
    + intros k' v' Hin Heq. apply append_cancel_l in Heq. eauto.
    + apply Set_empty_cleared.
  - intros l Hin. eapply tidy_no_empty_value; [|exact Hin].
    apply assembleLabels_tidy.
Qed.

End Assembler.

(** C10 does not hold as stated for map entries: the entry "a.b" of
    resourceLabels has an empty value, the entry "a_b" visited after it
    converts to the same name, and the label is handed to the engine. *)
Lemma empty_entry_label_set_again :
  let ge := mkGCPLogEntry "" (mkGCPResource "" [("a.b", ""); ("a_b", "x")]) "" "" "" [] "" in
  @json_Unmarshal Fixture.ext
    (Fixture.bytes
       (Fixture.object1 "resource"
          (Fixture.object1 "labels"
             (Fixture.object2 "a.b" (Fixture.quoted "") "a_b" (Fixture.quoted "x")))))
    = Ok ge /\
  In ("a.b", "") (ResourceLabels (Resource ge)) /\
  labels.Labels (assembleLabels (ext := Fixture.ext) ge [])
    = [labels.mkLabel "__gcp_resource_labels_a_b" "x"] /\
  In ("__gcp_resource_labels_" ++ @convertToLokiCompatibleLabel Fixture.ext "a.b")%string
     (labels.names (labels.Labels (assembleLabels (ext := Fixture.ext) ge []))).
Proof.
  repeat split; try reflexivity.
  - now left.
  - now left.
Qed.

Lemma empty_values_leave_no_label_witness :
  let ge := mkGCPLogEntry "" (mkGCPResource "" [("zone/a", ""); ("b", "x")]) "" "" "" [] "" in
  let base := [labels.mkLabel "__gcp_logname" "old";
               labels.mkLabel "__gcp_resource_labels_zone_a" "stale"] in
  ~ In "__gcp_logname"
       (labels.names (labels.Labels (assembleLabels (ext := Fixture.ext) ge base))) /\
  ~ In "__gcp_resource_labels_zone_a"
       (labels.names (labels.Labels (assembleLabels (ext := Fixture.ext) ge base))).
Proof.
  intros ge base.
  destruct (empty_values_leave_no_label (ext := Fixture.ext) ge base)
    as (Hlog & _ & _ & Hres & _).
  split.
  - apply Hlog. reflexivity.
  - apply (Hres [] "zone/a" [("b", "x")]); [reflexivity|].
    intros k' v' [[= <- <-] | []]. discriminate.
Defined.

(** ** The shape of a successful call *)

Section FormatterFacts.

Context {ext : Externals}.

Implicit Types (now : time.Time) (data : list byte) (other : gmap string string).
Implicit Types (otherInternal processed : list labels.Label) (ge : GCPLogEntry).
Implicit Types (relabelConfig : list relabel_Config) (e : loki.Entry).

(** Once the record is decoded, the only way left to fail is the
    timestamp. *)
Lemma parse_decoded now data other otherInternal uts ufl relabelConfig ge :
  json_Unmarshal data = Ok ge ->
  parseGCPLogsEntry now data other otherInternal uts ufl relabelConfig =
    match resolveTimestamp now ge uts with
    | Err err => Err err
    | Ok ts =>
        Ok (loki.mkEntry
              (finalLabels (relabelLabels (assembleLabels ge otherInternal) relabelConfig) other)
              (logproto.mkEntry ts (selectLine data ge ufl)))
    end.
Proof. intros Hd. unfold parseGCPLogsEntry. now rewrite Hd. Qed.

Lemma parse_ok_inv now data other otherInternal uts ufl relabelConfig e :
  parseGCPLogsEntry now data other otherInternal uts ufl relabelConfig = Ok e ->
  exists ge ts,
    json_Unmarshal data = Ok ge /\
    resolveTimestamp now ge uts = Ok ts /\
    e = loki.mkEntry
          (finalLabels (relabelLabels (assembleLabels ge otherInternal) relabelConfig) other)
          (logproto.mkEntry ts (selectLine data ge ufl)).
Proof.
  unfold parseGCPLogsEntry.
  destruct (json_Unmarshal data) as [ge|msg]; [|discriminate].
  destruct (resolveTimestamp now ge uts) as [ts|err] eqn:Hts; [|discriminate].
  intros [= <-]. exists ge, ts. auto.
Qed.

(** ** The finalizer *)

Lemma keepLabel_exported acc lbl :
  exported lbl = true -> keepLabel acc lbl = <[labels.Name lbl := labels.Value lbl]> acc.
Proof.
  unfold exported, keepLabel. intros H.
  apply andb_prop in H as [H Hv]. apply andb_prop in H as [Hp Hn].
  apply negb_true_iff in Hp. now rewrite Hp, Hn, Hv.
Qed.

Lemma keepLabel_skipped acc lbl : exported lbl = false -> keepLabel acc lbl = acc.
Proof.
  unfold exported, keepLabel. intros H.
  destruct (strings.HasPrefix (labels.Name lbl) "__"); [reflexivity|].
  destruct (model.LabelName_IsValid (labels.Name lbl)); [|reflexivity].
  destruct (model.LabelValue_IsValid (labels.Value lbl)); [discriminate|reflexivity].
Qed.

(** Every pair of the set built by the loop comes from an exported
    label of the list, or was in the set before. *)
Lemma keepLabel_fold_lookup processed : forall (acc : gmap string string) k v,
  List.fold_left keepLabel processed acc !! k = Some v ->
  acc !! k = Some v \/
  exists lbl, In lbl processed /\ exported lbl = true /\
              labels.Name lbl = k /\ labels.Value lbl = v.
Proof.
  induction processed as [|lbl rest IH]; intros acc k v Hk; simpl in Hk.
  - now left.
  - apply IH in Hk as [Hk | (l & Hin & Hex & Hn & Hv)].
    + destruct (exported lbl) eqn:Hex.
      * rewrite keepLabel_exported in Hk by assumption.
        destruct (decide (labels.Name lbl = k)) as [Heq|Hne].
        -- subst k. rewrite lookup_insert_eq in Hk. injection Hk as Hk.
           right. exists lbl. simpl. auto.
        -- rewrite lookup_insert_ne in Hk by assumption. now left.
      * rewrite keepLabel_skipped in Hk by assumption. now left.
    + right. exists l. simpl. auto.
Qed.

(** Labels that fail a test leave no trace in the set. *)
Lemma keepLabel_fold_filter (keep : labels.Label -> bool) processed :
  (forall lbl, exported lbl = true -> keep lbl = true) ->
  forall acc : gmap string string,
    List.fold_left keepLabel processed acc =
    List.fold_left keepLabel (List.filter keep processed) acc.
Proof.
  intros Hkeep. induction processed as [|lbl rest IH]; intros acc; simpl; [reflexivity|].
  destruct (keep lbl) eqn:Hk; simpl.
  - apply IH.
  - rewrite keepLabel_skipped; [apply IH|].
    destruct (exported lbl) eqn:Hex; [|reflexivity].
    apply Hkeep in Hex. congruence.
Qed.

Lemma exported_wellFormed lbl : exported lbl = true -> wellFormed lbl = true.
Proof.
  unfold exported, wellFormed. intros H.
  apply andb_prop in H as [H Hv]. apply andb_prop in H as [_ Hn].
  now rewrite Hn, Hv.
Qed.

(** [Merge]: the caller's pairs win, the others are kept. *)
Lemma Merge_lookup_other (l other : gmap string string) k v :
  other !! k = Some v -> model.Merge l other !! k = Some v.
Proof. intros H. unfold model.Merge. now apply lookup_union_Some_l. Qed.

Lemma Merge_lookup_own (l other : gmap string string) k :
  other !! k = None -> model.Merge l other !! k = l !! k.
Proof. intros H. unfold model.Merge. now apply lookup_union_r. Qed.

Lemma Merge_empty other : model.Merge ∅ other = other.
Proof. unfold model.Merge. apply (right_id_L ∅ (∪)). Qed.

End FormatterFacts.

(** ** The final label set *)

Section FinalLabels.

Context {ext : Externals}.

Implicit Types (now : time.Time) (data : list byte) (other : gmap string string).
Implicit Types (otherInternal : list labels.Label) (e : loki.Entry).
Implicit Types (relabelConfig : list relabel_Config).

(** C2, corrected: in a returned record, a label name that starts
    with "__" can only be one of the caller's own labels; no label
    that comes out of the relabeled list starts with "__". *)
Theorem internal_prefix_only_from_caller
    now data other otherInternal uts ufl relabelConfig e :
  parseGCPLogsEntry now data other otherInternal uts ufl relabelConfig = Ok e ->
  forall k v,
    loki.Labels e !! k = Some v ->
    other !! k = None ->
    strings.HasPrefix k "__" = false.
Proof.
  intros Hp k v Hk Hother.
  apply parse_ok_inv in Hp as (ge & ts & _ & _ & ->).
  simpl in Hk. unfold finalLabels in Hk.
  rewrite Merge_lookup_own in Hk by assumption.
  apply keepLabel_fold_lookup in Hk as [Hk | (lbl & _ & Hex & <- & _)].
  - now rewrite lookup_empty in Hk.
  - unfold exported in Hex.
    apply andb_prop in Hex as [Hex _]. apply andb_prop in Hex as [Hex _].
    now apply negb_true_iff in Hex.
Qed.

(** C4: in a returned record, a key of the caller's label set carries
    the caller's value, whatever the pipeline derived for it, and
    every other key carries what the pipeline derived, if anything. *)
Theorem caller_labels_take_precedence
    now data other otherInternal uts ufl relabelConfig e :
  parseGCPLogsEntry now data other otherInternal uts ufl relabelConfig = Ok e ->
  exists ge,
    json_Unmarshal data = Ok ge /\
    forall k,
      (forall v, other !! k = Some v -> loki.Labels e !! k = Some v) /\
      (other !! k = None ->
       loki.Labels e !! k =
         List.fold_left keepLabel
           (relabelLabels (assembleLabels ge otherInternal) relabelConfig) ∅ !! k).
Proof.
  intros Hp.
  apply parse_ok_inv in Hp as (ge & ts & Hd & _ & ->).
  exists ge. split; [exact Hd|].
  intros k. simpl. unfold finalLabels. split.
  - intros v. apply Merge_lookup_other.
  - apply Merge_lookup_own.
Qed.

(** C7, corrected: in a returned record, every label that is not one
    of the caller's own has a valid name and a valid value; and the
    label set is the one the relabeled list gives once its invalid
    entries are taken out: they are passed over, no error is raised
    for them. *)
Theorem labels_valid_unless_from_caller
    now data other otherInternal uts ufl relabelConfig e :
  parseGCPLogsEntry now data other otherInternal uts ufl relabelConfig = Ok e ->
  (forall k v,
     loki.Labels e !! k = Some v ->
     other !! k = None ->
     model.LabelName_IsValid k = true /\ model.LabelValue_IsValid v = true) /\
  (exists ge,
     json_Unmarshal data = Ok ge /\
     loki.Labels e =
       finalLabels
         (List.filter wellFormed
            (relabelLabels (assembleLabels ge otherInternal) relabelConfig))
         other).
Proof.
  intros Hp.
  apply parse_ok_inv in Hp as (ge & ts & Hd & _ & ->). split.
  - intros k v Hk Hother. simpl in Hk. unfold finalLabels in Hk.
    rewrite Merge_lookup_own in Hk by assumption.
    apply keepLabel_fold_lookup in Hk as [Hk | (lbl & _ & Hex & <- & <-)].
    + now rewrite lookup_empty in Hk.
    + apply exported_wellFormed in Hex. now apply andb_prop in Hex.
  - exists ge. split; [exact Hd|]. simpl. unfold finalLabels. f_equal.
    apply keepLabel_fold_filter, exported_wellFormed.
Qed.

End FinalLabels.

(** C2 does not hold as stated: a caller label named "__x" is in the output. *)
Lemma caller_internal_label_in_output :
  exists e,
    parseGCPLogsEntry (ext := Fixture.ext) Fixture.now (Fixture.bytes "{}")
      {["__x" := "y"]} [] false false [] = Ok e /\
    loki.Labels e !! "__x" = Some "y" /\
    strings.HasPrefix "__x" "__" = true.
Proof. eexists. split; [reflexivity|]. split; reflexivity. Qed.

Lemma internal_prefix_only_from_caller_witness :
  exists e,
    parseGCPLogsEntry (ext := Fixture.ext) Fixture.now (Fixture.bytes "{}")
      {["env" := "prod"]} [labels.mkLabel "job" "gcplog"; labels.mkLabel "__tmp" "t"]
      false false [] = Ok e /\
    loki.Labels e !! "job" = Some "gcplog" /\
    strings.HasPrefix "job" "__" = false.
Proof.
  eexists. split; [reflexivity|]. split; [reflexivity|].
  eapply (internal_prefix_only_from_caller (ext := Fixture.ext)
            Fixture.now (Fixture.bytes "{}") {["env" := "prod"]}
            [labels.mkLabel "job" "gcplog"; labels.mkLabel "__tmp" "t"]
            false false [] _ eq_refl "job" "gcplog"); reflexivity.
Defined.

Lemma caller_labels_take_precedence_witness :
  let data := Fixture.bytes
    (Fixture.object2 "logName" (Fixture.quoted "projects/p/logs/syslog")
       "severity" (Fixture.quoted "INFO")) in
  let rules := [Fixture.Copy "__gcp_severity" "level"; Fixture.Copy "__gcp_logname" "job"] in
  exists e,
    parseGCPLogsEntry (ext := Fixture.ext) Fixture.now data
      {["job" := "caller"; "env" := "prod"]} [] false false rules = Ok e /\
    loki.Labels e !! "job" = Some "caller" /\
    loki.Labels e !! "env" = Some "prod" /\
    loki.Labels e !! "level" = Some "INFO".
Proof.
  intros data rules.
  eexists. split; [reflexivity|].
  destruct (caller_labels_take_precedence (ext := Fixture.ext)
              Fixture.now data {["job" := "caller"; "env" := "prod"]} []
              false false rules _ eq_refl) as (ge & Hd & H).
  injection Hd as <-.
  split; [apply (H "job"); reflexivity|].
  split; [apply (H "env"); reflexivity|].
  destruct (H "level") as [_ ->]; reflexivity.
Defined.

(** C7 does not hold as stated: a caller label named "a-b" is in the output. *)
Lemma caller_invalid_label_in_output :
  exists e,
    parseGCPLogsEntry (ext := Fixture.ext) Fixture.now (Fixture.bytes "{}")
      {["a-b" := "v"]} [] false false [] = Ok e /\
    loki.Labels e !! "a-b" = Some "v" /\
    model.LabelName_IsValid "a-b" = false.
Proof. eexists. split; [reflexivity|]. split; reflexivity. Qed.

Lemma labels_valid_unless_from_caller_witness :
  exists e,
    parseGCPLogsEntry (ext := Fixture.ext) Fixture.now (Fixture.bytes "{}")
      {["env" := "prod"]}
      [labels.mkLabel "bad-name" "x"; labels.mkLabel "job" "gcplog"]
      false false [] = Ok e /\
    loki.Labels e !! "job" = Some "gcplog" /\
    loki.Labels e !! "bad-name" = None /\
    model.LabelName_IsValid "job" = true /\ model.LabelValue_IsValid "gcplog" = true.
Proof.
  eexists. split; [reflexivity|]. split; [reflexivity|]. split; [reflexivity|].
  eapply (proj1 (labels_valid_unless_from_caller (ext := Fixture.ext)
            Fixture.now (Fixture.bytes "{}") {["env" := "prod"]}
            [labels.mkLabel "bad-name" "x"; labels.mkLabel "job" "gcplog"]
            false false [] _ eq_refl) "job" "gcplog"); reflexivity.
Defined.

(** ** Relabeling, timestamp and line *)

Section Resolver.

Context {ext : Externals}.

Implicit Types (now : time.Time) (data : list byte) (other : gmap string string).
Implicit Types (otherInternal : list labels.Label) (e : loki.Entry) (ge : GCPLogEntry).
Implicit Types (relabelConfig : list relabel_Config).

(** C1, corrected: when the relabel engine signals a drop for a
    decoded record, the signal is discarded and nothing is cut short:
    the label list the engine returned with it goes through the
    finalizer, and the call ends as the timestamp decides, with a
    timestamp error or with a normal entry. *)
Theorem drop_signal_discarded
    now data other otherInternal uts ufl relabelConfig ge ret :
  json_Unmarshal data = Ok ge ->
  relabelConfig <> [] ->
  relabel_Process (labels.Labels (assembleLabels ge otherInternal)) relabelConfig
    = (ret, false) ->
  parseGCPLogsEntry now data other otherInternal uts ufl relabelConfig =
    match resolveTimestamp now ge uts with
    | Err err => Err err
    | Ok ts =>
        Ok (loki.mkEntry (finalLabels ret other)
              (logproto.mkEntry ts (selectLine data ge ufl)))
    end.
Proof.
  intros Hd Hne Hdrop.
  rewrite (parse_decoded _ _ _ _ _ _ _ _ Hd).
  unfold relabelLabels.
  destruct relabelConfig as [|c cs]; [congruence|].
  now rewrite Hdrop.
Qed.

(** C9: with an empty rule set the finalizer receives the list of the
    assembled labels itself: that list holds the labels the builder
    holds and no other, in the order of their names when the base
    labels came in that order; the transform hands it to the finalizer
    as it is, so that the labels of the result are the finalized
    assembled list merged with the caller's; and the relabel engine has
    no part in the result, which is the same under any other engine. *)
Theorem empty_rules_pass_through
    (lbs : labels.Builder) now data other otherInternal uts ufl :
  (relabelLabels lbs [] = labels.Labels lbs /\
   (forall l, In l (relabelLabels lbs []) <-> labels.holds lbs l) /\
   (Sorted labels.byName (labels.base lbs) ->
    Sorted labels.byName (relabelLabels lbs []))) /\
  (forall ge,
     json_Unmarshal data = Ok ge ->
     parseGCPLogsEntry now data other otherInternal uts ufl [] =
       match resolveTimestamp now ge uts with
       | Err err => Err err
       | Ok ts =>
           Ok (loki.mkEntry
                 (finalLabels (labels.Labels (assembleLabels ge otherInternal)) other)
                 (logproto.mkEntry ts (selectLine data ge ufl)))
       end) /\
  (forall ext' : Externals,
     @json_Unmarshal ext' = @json_Unmarshal ext ->
     @convertToLokiCompatibleLabel ext' = @convertToLokiCompatibleLabel ext ->
     @time_Parse_RFC3339 ext' = @time_Parse_RFC3339 ext ->
     @strings_TrimSpace ext' = @strings_TrimSpace ext ->
     parseGCPLogsEntry (ext := ext') now data other otherInternal uts ufl [] =
     parseGCPLogsEntry (ext := ext) now data other otherInternal uts ufl []).
Proof.
  split; [|split].
  - split; [reflexivity|]. split.
    + intros l. apply Labels_In.
    + apply Labels_Sorted.
  - intros ge Hd. now rewrite (parse_decoded _ _ _ _ _ _ _ _ Hd).
  - intros ext' Hjson Hconv Hparse Htrim.
    unfold parseGCPLogsEntry, relabelLabels, resolveTimestamp, selectLine,
      assembleLabels, setResourceLabel, setEntryLabel.
    now rewrite Hjson, Hconv, Hparse, Htrim.
Qed.

(** C3, corrected: with the incoming timestamp adopted and both
    timestamp fields empty, the empty string is what gets parsed; its
    parse error ends the call with the invalid-timestamp-format
    error, and no record is returned.  So does every parse error of
    the selected timestamp string; the no-timestamp-found error is
    returned only after a successful parse, of the zero instant, with
    the incoming timestamp adopted. *)
Theorem empty_timestamps_invalid_format :
  (forall now data other otherInternal ufl relabelConfig ge cause,
     json_Unmarshal data = Ok ge ->
     Timestamp ge = "" ->
     ReceiveTimestamp ge = "" ->
     time_Parse_RFC3339 "" = Err cause ->
     parseGCPLogsEntry now data other otherInternal true ufl relabelConfig
       = Err (InvalidTimestampFormat cause)) /\
  (forall now data other otherInternal ufl relabelConfig ge cause,
     json_Unmarshal data = Ok ge ->
     time_Parse_RFC3339 (selectedTimestamp ge) = Err cause ->
     parseGCPLogsEntry now data other otherInternal true ufl relabelConfig
       = Err (InvalidTimestampFormat cause)) /\
  (forall now data other otherInternal uts ufl relabelConfig,
     parseGCPLogsEntry now data other otherInternal uts ufl relabelConfig
       = Err NoTimestampFound ->
     uts = true /\
     exists ge ts,
       json_Unmarshal data = Ok ge /\
       time_Parse_RFC3339 (selectedTimestamp ge) = Ok ts /\
       time.IsZero ts = true).
Proof.
  split; [|split].
  - intros now data other otherInternal ufl relabelConfig ge cause Hd Ht Hr Hparse.
    rewrite (parse_decoded _ _ _ _ _ _ _ _ Hd).
    unfold resolveTimestamp, selectedTimestamp.
    rewrite Ht, Hr. simpl. now rewrite Hparse.
  - intros now data other otherInternal ufl relabelConfig ge cause Hd Hparse.
    rewrite (parse_decoded _ _ _ _ _ _ _ _ Hd).
    unfold resolveTimestamp. now rewrite Hparse.
  - intros now data other otherInternal uts ufl relabelConfig.
    unfold parseGCPLogsEntry.
    destruct (json_Unmarshal data) as [ge|msg]; [|discriminate].
    unfold resolveTimestamp.
    destruct uts; [|discriminate].
    destruct (time_Parse_RFC3339 (selectedTimestamp ge)) as [ts|cause] eqn:Hparse;
      [|discriminate].
    destruct (time.IsZero ts) eqn:Hz; [|discriminate].
    intros _. split; [reflexivity|]. now exists ge, ts.
Qed.

(** C5: with the incoming timestamp adopted, an empty timestamp field
    and a receiveTimestamp that parses to a non-zero instant, a record
    is returned and it carries that instant. *)
Theorem receive_timestamp_fallback
    now data other otherInternal ufl relabelConfig ge t :
  json_Unmarshal data = Ok ge ->
  Timestamp ge = "" ->
  time_Parse_RFC3339 (ReceiveTimestamp ge) = Ok t ->
  time.IsZero t = false ->
  exists e,
    parseGCPLogsEntry now data other otherInternal true ufl relabelConfig = Ok e /\
    logproto.Timestamp (loki.Entry_ e) = t.
Proof.
  intros Hd Ht Hparse Hnz.
  rewrite (parse_decoded _ _ _ _ _ _ _ _ Hd).
  unfold resolveTimestamp, selectedTimestamp.
  rewrite Ht. simpl. rewrite Hparse, Hnz.
  eexists. split; reflexivity.
Qed.

(** C8: with the incoming timestamp adopted, a selected timestamp
    string that parses to the zero instant ends the call with the
    no-timestamp-found error, and no record is returned. *)
Theorem zero_timestamp_rejected
    now data other otherInternal ufl relabelConfig ge ts :
  json_Unmarshal data = Ok ge ->
  time_Parse_RFC3339 (selectedTimestamp ge) = Ok ts ->
  time.IsZero ts = true ->
  parseGCPLogsEntry now data other otherInternal true ufl relabelConfig
    = Err NoTimestampFound.
Proof.
  intros Hd Hparse Hz.
  rewrite (parse_decoded _ _ _ _ _ _ _ _ Hd).
  unfold resolveTimestamp. now rewrite Hparse, Hz.
Qed.

(** C6: in a returned record the line is the text payload when the
    full line is not asked for and the trimmed payload is not empty,
    and the raw input, byte for byte, in every other case. *)
Theorem line_policy
    now data other otherInternal uts ufl relabelConfig e :
  parseGCPLogsEntry now data other otherInternal uts ufl relabelConfig = Ok e ->
  exists ge,
    json_Unmarshal data = Ok ge /\
    (ufl = false ->
     strings_TrimSpace (TextPayload ge) <> "" ->
     logproto.Line (loki.Entry_ e) = TextPayload ge) /\
    (ufl = true \/ strings_TrimSpace (TextPayload ge) = "" ->
     logproto.Line (loki.Entry_ e) = string_of_list_byte data).
Proof.
  intros Hp.
  apply parse_ok_inv in Hp as (ge & ts & Hd & _ & ->).
  exists ge. split; [exact Hd|]. simpl. unfold selectLine. split.
  - intros -> Hne. apply String.eqb_neq in Hne. now rewrite Hne.
  - intros [-> | Hempty]; [reflexivity|].
    apply String.eqb_eq in Hempty. rewrite Hempty.
    now rewrite andb_false_r.
Qed.

End Resolver.

(** C1 does not hold as stated: the rule set drops the record, and the call
    returns a normal entry with the caller's labels. *)
Lemma dropped_record_still_returned :
  let data := Fixture.bytes
    (Fixture.object2 "logName" (Fixture.quoted "projects/p/logs/syslog")
       "severity" (Fixture.quoted "INFO")) in
  (exists ge,
     @json_Unmarshal Fixture.ext data = Ok ge /\
     snd (@relabel_Process Fixture.ext
            (labels.Labels (assembleLabels (ext := Fixture.ext) ge []))
            [Fixture.DropAll]) = false) /\
  parseGCPLogsEntry (ext := Fixture.ext) Fixture.now data
    {["job" := "gcplog"]} [] false false [Fixture.DropAll]
  = Ok (loki.mkEntry {["job" := "gcplog"]}
          (logproto.mkEntry Fixture.now (string_of_list_byte data))).
Proof.
  split; [eexists; split; reflexivity | reflexivity].
Qed.

Lemma drop_signal_discarded_witness :
  let data := Fixture.bytes
    (Fixture.object2 "logName" (Fixture.quoted "projects/p/logs/syslog")
       "severity" (Fixture.quoted "INFO")) in
  parseGCPLogsEntry (ext := Fixture.ext) Fixture.now data
    {["job" := "gcplog"]} [] false false [Fixture.DropAll; Fixture.KeepAll]
  = Ok (loki.mkEntry {["job" := "gcplog"]}
          (logproto.mkEntry Fixture.now (string_of_list_byte data))).
Proof.
  intros data.
  rewrite (drop_signal_discarded (ext := Fixture.ext) Fixture.now data
             {["job" := "gcplog"]} [] false false
             [Fixture.DropAll; Fixture.KeepAll] _ [] eq_refl);
    [reflexivity | discriminate | reflexivity].
Defined.

Lemma empty_rules_pass_through_witness :
  let ge := mkGCPLogEntry "projects/p/logs/syslog" (mkGCPResource "" []) "" "" "INFO" [] "" in
  let base := [labels.mkLabel "instance" "i-1"; labels.mkLabel "job" "gcplog"] in
  (relabelLabels (ext := Fixture.ext) (assembleLabels (ext := Fixture.ext) ge base) []
   = [labels.mkLabel "__gcp_logname" "projects/p/logs/syslog";
      labels.mkLabel "__gcp_severity" "INFO";
      labels.mkLabel "instance" "i-1";
      labels.mkLabel "job" "gcplog"] /\
   Sorted labels.byName
     (relabelLabels (ext := Fixture.ext) (assembleLabels (ext := Fixture.ext) ge base) [])) /\
  parseGCPLogsEntry (ext := Fixture.ext) Fixture.now Samples.logNameSeverity
    {["env" := "prod"]} base false false []
  = Ok (loki.mkEntry {["env" := "prod"; "instance" := "i-1"; "job" := "gcplog"]}
          (logproto.mkEntry Fixture.now (string_of_list_byte Samples.logNameSeverity))) /\
  parseGCPLogsEntry (ext := Samples.dropping) Fixture.now Samples.logNameSeverity
    {["env" := "prod"]} base false false []
  = parseGCPLogsEntry (ext := Fixture.ext) Fixture.now Samples.logNameSeverity
      {["env" := "prod"]} base false false [].
Proof.
  intros ge base.
  destruct (empty_rules_pass_through (ext := Fixture.ext)
              (assembleLabels (ext := Fixture.ext) ge base)
              Fixture.now Samples.logNameSeverity {["env" := "prod"]} base false false)
    as ((_ & _ & Hsorted) & Hparse & Hengine).
  split; [split; [reflexivity | apply Hsorted; repeat constructor]|].
  split.
  - rewrite (Hparse ge eq_refl). reflexivity.
  - apply (Hengine Samples.dropping); reflexivity.
Defined.

(** C3 does not hold as stated: both timestamp fields are empty, and the
    error is the invalid-timestamp-format one. *)
Lemma empty_timestamps_not_missing_error :
  parseGCPLogsEntry (ext := Fixture.ext) Fixture.now (Fixture.bytes "{}")
    ∅ [] true false []
  = Err (InvalidTimestampFormat "parsing time: cannot parse") /\
  Err (InvalidTimestampFormat "parsing time: cannot parse")
  <> (Err NoTimestampFound : result loki.Entry error).
Proof. split; [reflexivity | discriminate]. Qed.

Lemma empty_timestamps_invalid_format_witness :
  parseGCPLogsEntry (ext := Fixture.ext) Fixture.now (Fixture.bytes "{}")
    ∅ [] true false []
  = Err (InvalidTimestampFormat "parsing time: cannot parse") /\
  (exists ge ts,
     @json_Unmarshal Fixture.ext
       (Fixture.bytes
          (Fixture.object1 "timestamp" (Fixture.quoted "0001-01-01T00:00:00Z")))
     = Ok ge /\
     @time_Parse_RFC3339 Fixture.ext (selectedTimestamp ge) = Ok ts /\
     time.IsZero ts = true).
Proof.
  destruct (empty_timestamps_invalid_format (ext := Fixture.ext))
    as (Hempty & _ & Hzero).
  split.
  - apply (Hempty Fixture.now (Fixture.bytes "{}") ∅ [] false [] Fixture.emptyEntry);
      reflexivity.
  - apply (Hzero Fixture.now
             (Fixture.bytes
                (Fixture.object1 "timestamp" (Fixture.quoted "0001-01-01T00:00:00Z")))
             ∅ [] true false []).
    reflexivity.
Defined.

Lemma receive_timestamp_fallback_witness :
  exists e,
    parseGCPLogsEntry (ext := Fixture.ext) Fixture.now
      (Fixture.bytes
         (Fixture.object1 "receiveTimestamp" (Fixture.quoted "2024-01-01T00:00:00Z")))
      ∅ [] true false [] = Ok e /\
    logproto.Timestamp (loki.Entry_ e) = time.mkTime 63839664000 0.
Proof.
  apply (receive_timestamp_fallback (ext := Fixture.ext) Fixture.now
           (Fixture.bytes
              (Fixture.object1 "receiveTimestamp" (Fixture.quoted "2024-01-01T00:00:00Z")))
           ∅ [] false []
           (mkGCPLogEntry "" (mkGCPResource "" []) "" "2024-01-01T00:00:00Z" "" [] ""));
    reflexivity.
Defined.

Lemma zero_timestamp_rejected_witness :
  parseGCPLogsEntry (ext := Fixture.ext) Fixture.now
    (Fixture.bytes
       (Fixture.object1 "timestamp" (Fixture.quoted "0001-01-01T00:00:00Z")))
    ∅ [] true false []
  = Err NoTimestampFound.
Proof.
  apply (zero_timestamp_rejected (ext := Fixture.ext) Fixture.now
           (Fixture.bytes
              (Fixture.object1 "timestamp" (Fixture.quoted "0001-01-01T00:00:00Z")))
           ∅ [] false []
           (mkGCPLogEntry "" (mkGCPResource "" []) "0001-01-01T00:00:00Z" "" "" [] "")
           (time.mkTime 0 0));
    reflexivity.
Defined.

Lemma line_policy_witness :
  (exists e,
     parseGCPLogsEntry (ext := Fixture.ext) Fixture.now
       (Fixture.bytes (Fixture.object1 "textPayload" (Fixture.quoted "hello")))
       ∅ [] false false [] = Ok e /\
     logproto.Line (loki.Entry_ e) = "hello") /\
  (exists e,
     parseGCPLogsEntry (ext := Fixture.ext) Fixture.now
       (Fixture.bytes (Fixture.object1 "textPayload" (Fixture.quoted "   ")))
       ∅ [] false false [] = Ok e /\
     logproto.Line (loki.Entry_ e)
       = Fixture.object1 "textPayload" (Fixture.quoted "   ")).
Proof.
  split.
  - eexists. split; [reflexivity|].
    destruct (line_policy (ext := Fixture.ext) Fixture.now
                (Fixture.bytes (Fixture.object1 "textPayload" (Fixture.quoted "hello")))
                ∅ [] false false [] _ eq_refl) as (ge & Hd & Htext & _).
    injection Hd as <-.
    apply Htext; [reflexivity | discriminate].
  - eexists. split; [reflexivity|].
    destruct (line_policy (ext := Fixture.ext) Fixture.now
                (Fixture.bytes (Fixture.object1 "textPayload" (Fixture.quoted "   ")))
                ∅ [] false false [] _ eq_refl) as (ge & Hd & _ & Hraw).
    injection Hd as <-.
    rewrite Hraw; [reflexivity | right; reflexivity].
Defined.

(** * Further properties *)

(** ** The builder: what [Set] leaves in the additions *)

Section BuilderAdditions.

Import labels.

Lemma overwrite_Some_In s n v s' : overwrite s n v = Some s' -> In (mkLabel n v) s'.
Proof.
  revert s'. induction s as [|h t IH]; intros s' H; simpl in H; [discriminate|].
  destruct (String.eqb (Name h) n).
  - injection H as <-. now left.
  - destruct (overwrite t n v) as [t'|]; [|discriminate].
    injection H as <-. right. now apply IH.
Qed.

Lemma overwrite_Some_other s n v s' a :
  overwrite s n v = Some s' -> In a s -> Name a <> n -> In a s'.
Proof.
  revert s'. induction s as [|h t IH]; intros s' H Hin Hne; simpl in H; [discriminate|].
  destruct (String.eqb (Name h) n) eqn:Heq.
  - injection H as <-. apply String.eqb_eq in Heq.
    destruct Hin as [<- | Hin]; [contradiction | now right].
  - destruct (overwrite t n v) as [t'|]; [|discriminate].
    injection H as <-. destruct Hin as [<- | Hin]; [now left | right; now apply IH].
Qed.

(** A [Set] with a value puts the label in the additions. *)
Lemma Set_adds b n v : v <> "" -> In (mkLabel n v) (add (Set_ b n v)).
Proof.
  intros Hv. unfold Set_. apply String.eqb_neq in Hv. rewrite Hv.
  destruct (overwrite (add b) n v) as [add'|] eqn:Ho; simpl.
  - now apply overwrite_Some_In in Ho.
  - apply in_or_app. right. now left.
Qed.

(** A [Set] of another name leaves an added label where it is. *)
Lemma Set_keeps_added b m w a :
  Name a <> m -> In a (add b) -> In a (add (Set_ b m w)).
Proof.
  intros Hne Hin. unfold Set_. destruct (String.eqb w "").
  - simpl. apply filter_In. split; [assumption|].
    apply negb_true_iff. now apply String.eqb_neq.
  - destruct (overwrite (add b) m w) as [add'|] eqn:Ho; simpl.
    + eapply overwrite_Some_other; eauto.
    + apply in_or_app. now left.
Qed.

Lemma Set_base b n v : base (Set_ b n v) = base b.
Proof.
  unfold Set_. destruct (String.eqb v ""); [reflexivity|].
  now destruct (overwrite (add b) n v).
Qed.

(** [Set] records a deletion under the name it is given only. *)
Lemma Set_del_inv b n v m : In m (del (Set_ b n v)) -> In m (del b) \/ m = n.
Proof.
  unfold Set_. destruct (String.eqb v "").
  - simpl. rewrite in_app_iff. simpl. intuition.
  - destruct (overwrite (add b) n v); simpl; auto.
Qed.

Lemma names_NoDup_unique s a a' :
  List.NoDup (names s) -> In a s -> In a' s -> Name a = Name a' -> a = a'.
Proof.
  unfold names. induction s as [|h t IH]; simpl; [tauto|].
  intros Hnd Ha Ha' Heq. apply List.NoDup_cons_iff in Hnd as [Hh Ht].
  destruct Ha as [<- | Ha]; destruct Ha' as [<- | Ha']; auto.
  - exfalso. apply Hh. rewrite Heq. now apply in_map.
  - exfalso. apply Hh. rewrite <- Heq. now apply in_map.
Qed.

(** An added label is in the built list, and is the only label of the
    list under its name. *)
Lemma added_in_Labels b a :
  List.NoDup (names (add b)) -> In a (add b) ->
  In a (Labels b) /\ (forall l, In l (Labels b) -> Name l = Name a -> l = a).
Proof.
  intros Hnd Ha. split.
  - apply Labels_In. now left.
  - intros l Hl Heq. apply Labels_In in Hl as [Hl | (_ & _ & Hl)].
    + now apply (names_NoDup_unique (add b)).
    + exfalso. apply Hl. rewrite Heq. now apply in_map.
Qed.

Lemma insert_by_name_Permutation l s : Permutation (insert_by_name l s) (l :: s).
Proof.
  induction s as [|h t IH]; simpl; [reflexivity|].
  destruct (String.leb (Name l) (Name h)); [reflexivity|].
  rewrite IH. apply perm_swap.
Qed.

Lemma sort_by_name_Permutation s : Permutation (sort_by_name s) s.
Proof.
  induction s as [|h t IH]; simpl; [reflexivity|].
  rewrite insert_by_name_Permutation. now constructor.
Qed.

(** Distinct names in the base and in the additions give distinct
    names in the built list. *)
Lemma Labels_NoDup b :
  List.NoDup (names (base b)) -> List.NoDup (names (add b)) ->
  List.NoDup (names (Labels b)).
Proof.
  intros Hbase Hadd. unfold Labels.
  set (res := List.filter _ (base b)).
  assert (Hres : List.NoDup (names res)) by now apply filter_names_NoDup.
  assert (Hsort : List.NoDup (names (sort_by_name (res ++ add b)))).
  { unfold names.
    eapply Permutation_NoDup;
      [symmetry; apply Permutation_map, sort_by_name_Permutation|].
    rewrite map_app. apply List.NoDup_app; [assumption | assumption |].
    intros n Hn Hc. apply in_map_iff in Hn as (l & <- & Hl).
    unfold res in Hl. apply filter_In in Hl as [_ Hf].
    apply negb_true_iff, orb_false_elim in Hf as [_ Hf].
    apply contains_In in Hc. congruence. }
  destruct (del b); destruct (add b); assumption.
Qed.

End BuilderAdditions.

(** ** The assembler: what reaches the relabel engine *)

Section AssembledLabels.

Context {ext : Externals}.

Implicit Types (ge : GCPLogEntry) (otherInternal : list labels.Label).

(** Every [Set] of the assembler is under a name that starts with
    "__gcp_": what holds of the fresh builder and is kept by such a
    [Set] holds of the assembled builder. *)
Lemma assembleLabels_inv (Q : labels.Builder -> Prop) ge otherInternal :
  Q (labels.NewBuilder otherInternal) ->
  (forall b n v, strings.HasPrefix n "__gcp_" = true -> Q b -> Q (labels.Set_ b n v)) ->
  Q (assembleLabels ge otherInternal).
Proof.
  intros Hnew Hset. unfold assembleLabels.
  assert (Hres : forall l b, Q b -> Q (List.fold_left setResourceLabel l b)).
  { induction l as [|kv l IH]; intros b Hb; simpl; [assumption|].
    apply IH. now apply Hset. }
  assert (Hent : forall l b, Q b -> Q (List.fold_left setEntryLabel l b)).
  { induction l as [|kv l IH]; intros b Hb; simpl; [assumption|].
    apply IH. now apply Hset. }
  apply Hent, Hres. repeat (apply Hset; [reflexivity|]). exact Hnew.
Qed.

Lemma assembleLabels_base ge otherInternal :
  labels.base (assembleLabels ge otherInternal) = otherInternal.
Proof.
  apply (assembleLabels_inv (fun b => labels.base b = otherInternal)); [reflexivity|].
  intros b n v _ Hb. now rewrite Set_base.
Qed.

Lemma assembleLabels_add_NoDup ge otherInternal :
  List.NoDup (labels.names (labels.add (assembleLabels ge otherInternal))).
Proof.
  apply (assembleLabels_inv (fun b => List.NoDup (labels.names (labels.add b)))).
  - apply List.NoDup_nil.
  - intros b n v _. apply Set_add_NoDup.
Qed.

Lemma assembleLabels_add_internal ge otherInternal a :
  In a (labels.add (assembleLabels ge otherInternal)) ->
  strings.HasPrefix (labels.Name a) "__gcp_" = true.
Proof.
  intros Hin. apply (in_map labels.Name) in Hin. revert Hin.
  generalize (labels.Name a). 
  apply (assembleLabels_inv
           (fun b => forall m, In m (labels.names (labels.add b)) ->
                               strings.HasPrefix m "__gcp_" = true)).
  - simpl. contradiction.
  - intros b n v Hn Hb m Hm.
    apply Set_names_add in Hm as [Hm | [-> _]]; auto.
Qed.

Lemma assembleLabels_del ge otherInternal m :
  In m (labels.del (assembleLabels ge otherInternal)) ->
  strings.HasPrefix m "__gcp_" = true \/
  exists l, In l otherInternal /\ labels.Name l = m /\ labels.Value l = "".
Proof.
  revert m.
  apply (assembleLabels_inv
           (fun b => forall m, In m (labels.del b) ->
              strings.HasPrefix m "__gcp_" = true \/
              exists l, In l otherInternal /\ labels.Name l = m /\ labels.Value l = "")).
  - simpl. intros m Hm. right.
    apply in_map_iff in Hm as (l & Hn & Hl). apply filter_In in Hl as [Hl Hv].
    apply String.eqb_eq in Hv. eauto.
  - intros b n v Hn Hb m Hm.
    apply Set_del_inv in Hm as [Hm | ->]; auto.
Qed.

Lemma fold_setResourceLabel_added a l : forall b,
  (forall k v, In (k, v) l ->
     ("__gcp_resource_labels_" ++ convertToLokiCompatibleLabel k)%string <> labels.Name a) ->
  In a (labels.add b) -> In a (labels.add (List.fold_left setResourceLabel l b)).
Proof.
  induction l as [|[k v] l IH]; intros b Hl Hb; simpl; [assumption|].
  apply IH.
  - intros k' v' Hin. apply (Hl k' v'). now right.
  - apply Set_keeps_added; [|assumption].
    simpl. intros Heq. apply (Hl k v); [now left | now symmetry].
Qed.

Lemma fold_setEntryLabel_added a l : forall b,
  (forall k v, In (k, v) l ->
     ("__gcp_labels_" ++ convertToLokiCompatibleLabel k)%string <> labels.Name a) ->
  In a (labels.add b) -> In a (labels.add (List.fold_left setEntryLabel l b)).
Proof.
  induction l as [|[k v] l IH]; intros b Hl Hb; simpl; [assumption|].
  apply IH.
  - intros k' v' Hin. apply (Hl k' v'). now right.
  - apply Set_keeps_added; [|assumption].
    simpl. intros Heq. apply (Hl k v); [now left | now symmetry].
Qed.

(** X1: a non-empty logName, resource type or severity is handed to
    the relabel engine as the label __gcp_logname, __gcp_resource_type
    or __gcp_severity with that value, and no other label of the list
    has that name, whatever the base labels and the two maps hold. *)
Theorem mandatory_labels_handed ge otherInternal :
  let handed := labels.Labels (assembleLabels ge otherInternal) in
  let sole n v :=
    In (labels.mkLabel n v) handed /\
    (forall l, In l handed -> labels.Name l = n -> labels.Value l = v) in
  (LogName ge <> "" -> sole "__gcp_logname" (LogName ge)) /\
  (Type_ (Resource ge) <> "" -> sole "__gcp_resource_type" (Type_ (Resource ge))) /\
  (Severity ge <> "" -> sole "__gcp_severity" (Severity ge)).
Proof.
  intros handed sole.
  assert (Hsole : forall n v,
            In (labels.mkLabel n v) (labels.add (assembleLabels ge otherInternal)) ->
            sole n v).
  { intros n v Hin.
    destruct (added_in_Labels _ _ (assembleLabels_add_NoDup ge otherInternal) Hin)
      as [Hhanded Honly].
    split; [exact Hhanded|].
    intros l Hl Hn. now rewrite (Honly l Hl Hn). }
  split; [|split]; intros Hv; apply Hsole; unfold assembleLabels.
  - apply fold_setEntryLabel_added; [intros k v _; discriminate|].
    apply fold_setResourceLabel_added; [intros k v _; discriminate|].
    do 2 (apply Set_keeps_added; [discriminate|]).
    now apply Set_adds.
  - apply fold_setEntryLabel_added; [intros k v _; discriminate|].
    apply fold_setResourceLabel_added; [intros k v _; discriminate|].
    apply Set_keeps_added; [discriminate|].
    now apply Set_adds.
  - apply fold_setEntryLabel_added; [intros k v _; discriminate|].
    apply fold_setResourceLabel_added; [intros k v _; discriminate|].
    now apply Set_adds.
Qed.

(** X2: an entry of resourceLabels or of labels with a value is handed
    to the relabel engine under its prefixed, converted name with that
    value, as the only label of that name, when no entry visited after
    it in the same map converts to the same name: the last [Set] of a
    name decides. *)
Theorem map_labels_handed ge otherInternal :
  let handed := labels.Labels (assembleLabels ge otherInternal) in
  let sole n v :=
    In (labels.mkLabel n v) handed /\
    (forall l, In l handed -> labels.Name l = n -> labels.Value l = v) in
  (forall before k v after,
     ResourceLabels (Resource ge) = (before ++ (k, v) :: after)%list ->
     v <> "" ->
     (forall k' v', In (k', v') after ->
        convertToLokiCompatibleLabel k' <> convertToLokiCompatibleLabel k) ->
     sole ("__gcp_resource_labels_" ++ convertToLokiCompatibleLabel k)%string v) /\
  (forall before k v after,
     Labels ge = (before ++ (k, v) :: after)%list ->
     v <> "" ->
     (forall k' v', In (k', v') after ->
        convertToLokiCompatibleLabel k' <> convertToLokiCompatibleLabel k) ->
     sole ("__gcp_labels_" ++ convertToLokiCompatibleLabel k)%string v).
Proof.
  intros handed sole.
  assert (Hsole : forall n v,
            In (labels.mkLabel n v) (labels.add (assembleLabels ge otherInternal)) ->
            sole n v).
  { intros n v Hin.
    destruct (added_in_Labels _ _ (assembleLabels_add_NoDup ge otherInternal) Hin)
      as [Hhanded Honly].
    split; [exact Hhanded|].
    intros l Hl Hn. now rewrite (Honly l Hl Hn). }
  split; intros before k v after Hsplit Hv Hafter; apply Hsole; unfold assembleLabels.
  - apply fold_setEntryLabel_added; [intros k' v' _; discriminate|].
    rewrite Hsplit, fold_left_app. simpl.
    apply fold_setResourceLabel_added.
    + intros k' v' Hin Heq. simpl in Heq. apply append_cancel_l in Heq.
      now apply (Hafter k' v').
    + now apply Set_adds.
  - rewrite Hsplit, fold_left_app. simpl.
    apply fold_setEntryLabel_added.
    + intros k' v' Hin Heq. simpl in Heq. apply append_cancel_l in Heq.
      now apply (Hafter k' v').
    + now apply Set_adds.
Qed.

Lemma assembled_names_NoDup ge otherInternal :
  List.NoDup (labels.names otherInternal) ->
  List.NoDup (labels.names (labels.Labels (assembleLabels ge otherInternal))).
Proof.
  intros Hnd. apply Labels_NoDup.
  - now rewrite assembleLabels_base.
  - apply assembleLabels_add_NoDup.
Qed.

(** X3: base labels with distinct names give the relabel engine a list
    with distinct names, and base labels sorted by name give it a list
    sorted by name. *)
Theorem handed_names_distinct_sorted ge otherInternal :
  (List.NoDup (labels.names otherInternal) ->
   List.NoDup (labels.names (labels.Labels (assembleLabels ge otherInternal)))) /\
  (Sorted labels.byName otherInternal ->
   Sorted labels.byName (labels.Labels (assembleLabels ge otherInternal))).
Proof.
  split; [apply assembled_names_NoDup|].
  intros Hs. apply Labels_Sorted. now rewrite assembleLabels_base.
Qed.

End AssembledLabels.

(** ** The finalizer: which labels reach the output *)

Section OutputLabels.

Context {ext : Externals}.

Implicit Types (now : time.Time) (data : list byte) (other : gmap string string).
Implicit Types (otherInternal processed : list labels.Label) (ge : GCPLogEntry).
Implicit Types (relabelConfig : list relabel_Config) (e : loki.Entry).

Lemma prefix_append (p q : string) : forall n,
  String.prefix (p ++ q) n = true -> String.prefix p n = true.
Proof.
  induction p as [|a p IH]; intros [|b n]; simpl; try reflexivity; try discriminate.
  destruct (ascii_dec a b); [apply IH | discriminate].
Qed.

Lemma gcp_prefix_internal n :
  strings.HasPrefix n "__gcp_" = true -> strings.HasPrefix n "__" = true.
Proof. apply (prefix_append "__" "gcp_"). Qed.

Lemma exported_not_internal lbl :
  exported lbl = true -> strings.HasPrefix (labels.Name lbl) "__" = false.
Proof.
  unfold exported. intros H.
  apply andb_prop in H as [H _]. apply andb_prop in H as [H _].
  now apply negb_true_iff.
Qed.

(** The loop leaves a key alone when no exported label has it. *)
Lemma keepLabel_fold_other processed k : forall acc : gmap string string,
  (forall l, In l processed -> exported l = true -> labels.Name l <> k) ->
  List.fold_left keepLabel processed acc !! k = acc !! k.
Proof.
  induction processed as [|h t IH]; intros acc Hne; simpl; [reflexivity|].
  rewrite IH by (intros l Hl; apply Hne; now right).
  destruct (exported h) eqn:Hex.
  - rewrite keepLabel_exported by assumption.
    apply lookup_insert_ne, Hne; [now left | assumption].
  - now rewrite keepLabel_skipped.
Qed.

Lemma keepLabel_fold_last before lbl after (acc : gmap string string) :
  exported lbl = true ->
  (forall l, In l after -> exported l = true -> labels.Name l <> labels.Name lbl) ->
  List.fold_left keepLabel (before ++ lbl :: after) acc !! labels.Name lbl
  = Some (labels.Value lbl).
Proof.
  intros Hex Hafter. rewrite fold_left_app. simpl.
  rewrite keepLabel_fold_other by assumption.
  rewrite keepLabel_exported by assumption. apply lookup_insert_eq.
Qed.

Lemma final_label_origin
    now data other otherInternal uts ufl relabelConfig e k v :
  parseGCPLogsEntry now data other otherInternal uts ufl relabelConfig = Ok e ->
  loki.Labels e !! k = Some v ->
  other !! k = None ->
  exists ge,
    json_Unmarshal data = Ok ge /\
    In (labels.mkLabel k v)
       (relabelLabels (assembleLabels ge otherInternal) relabelConfig) /\
    exported (labels.mkLabel k v) = true.
Proof.
  intros Hp Hk Hother.
  apply parse_ok_inv in Hp as (ge & ts & Hd & _ & ->).
  exists ge. split; [exact Hd|].
  simpl in Hk. unfold finalLabels in Hk.
  rewrite Merge_lookup_own in Hk by assumption.
  apply keepLabel_fold_lookup in Hk as [Hk | ([n w] & Hin & Hex & Hn & Hv)].
  - now rewrite lookup_empty in Hk.
  - simpl in Hn, Hv. subst. now split.
Qed.

Lemma final_label_last
    now data other otherInternal uts ufl relabelConfig e ge before lbl after :
  parseGCPLogsEntry now data other otherInternal uts ufl relabelConfig = Ok e ->
  json_Unmarshal data = Ok ge ->
  relabelLabels (assembleLabels ge otherInternal) relabelConfig
    = (before ++ lbl :: after)%list ->
  exported lbl = true ->
  (forall l, In l after -> exported l = true -> labels.Name l <> labels.Name lbl) ->
  other !! labels.Name lbl = None ->
  loki.Labels e !! labels.Name lbl = Some (labels.Value lbl).
Proof.
  intros Hp Hd Hsplit Hex Hafter Hother.
  apply parse_ok_inv in Hp as (ge' & ts & Hd' & _ & ->).
  rewrite Hd in Hd'. injection Hd' as <-.
  simpl. unfold finalLabels.
  rewrite Merge_lookup_own by assumption.
  rewrite Hsplit. now apply keepLabel_fold_last.
Qed.

(** X4: in a returned record, a label that is not the caller's is an
    entry of the relabeled list, with that name and that value, that
    is not internal and is valid: nothing else is ever put in the
    output. *)
Theorem output_label_provenance
    now data other otherInternal uts ufl relabelConfig e k v :
  parseGCPLogsEntry now data other otherInternal uts ufl relabelConfig = Ok e ->
  loki.Labels e !! k = Some v ->
  other !! k = None ->
  exists ge,
    json_Unmarshal data = Ok ge /\
    In (labels.mkLabel k v)
       (relabelLabels (assembleLabels ge otherInternal) relabelConfig) /\
    exported (labels.mkLabel k v) = true.
Proof. apply final_label_origin. Qed.

(** X5: of the entries of the relabeled list under one name that are
    not internal and are valid, the last one gives the output its
    value, unless the caller has a label of that name. *)
Theorem last_exported_label_wins
    now data other otherInternal uts ufl relabelConfig e ge before lbl after :
  parseGCPLogsEntry now data other otherInternal uts ufl relabelConfig = Ok e ->
  json_Unmarshal data = Ok ge ->
  relabelLabels (assembleLabels ge otherInternal) relabelConfig
    = (before ++ lbl :: after)%list ->
  exported lbl = true ->
  (forall l, In l after -> exported l = true -> labels.Name l <> labels.Name lbl) ->
  other !! labels.Name lbl = None ->
  loki.Labels e !! labels.Name lbl = Some (labels.Value lbl).
Proof. apply final_label_last. Qed.

(** X6: with no relabel rule, the fields of the log entry give the
    output no label: a label of a returned record that is not the
    caller's is one of the base labels, not internal and valid. *)
Theorem entry_fields_need_rules
    now data other otherInternal uts ufl e k v :
  parseGCPLogsEntry now data other otherInternal uts ufl [] = Ok e ->
  loki.Labels e !! k = Some v ->
  other !! k = None ->
  In (labels.mkLabel k v) otherInternal /\ exported (labels.mkLabel k v) = true.
Proof.
  intros Hp Hk Hother.
  destruct (final_label_origin _ _ _ _ _ _ _ _ _ _ Hp Hk Hother)
    as (ge & _ & Hin & Hex).
  split; [|exact Hex].
  simpl in Hin. apply Labels_In in Hin as [Hin | (Hin & _)].
  - apply assembleLabels_add_internal, gcp_prefix_internal in Hin.
    apply exported_not_internal in Hex. congruence.
  - now rewrite assembleLabels_base in Hin.
Qed.

(** X7: with no relabel rule and base labels of distinct names, a base
    label that is not internal, is valid and has a value is in the
    output of a returned record with that value, unless the caller has
    a label of that name. *)
Theorem base_labels_pass_through
    now data other otherInternal uts ufl e lbl :
  parseGCPLogsEntry now data other otherInternal uts ufl [] = Ok e ->
  List.NoDup (labels.names otherInternal) ->
  In lbl otherInternal ->
  exported lbl = true ->
  labels.Value lbl <> "" ->
  other !! labels.Name lbl = None ->
  loki.Labels e !! labels.Name lbl = Some (labels.Value lbl).
Proof.
  intros Hp Hnd Hin Hex Hv Hother.
  pose proof Hp as Hp'.
  apply parse_ok_inv in Hp' as (ge & ts & Hd & _ & _).
  pose proof (exported_not_internal _ Hex) as Hint.
  assert (Hhanded : In lbl (labels.Labels (assembleLabels ge otherInternal))).
  { apply Labels_In. right. rewrite assembleLabels_base.
    split; [assumption|]. split.
    - intros Hdel. apply assembleLabels_del in Hdel as [Hpre | (l & Hl & Hn & Hlv)].
      + apply gcp_prefix_internal in Hpre. congruence.
      + rewrite (names_NoDup_unique otherInternal l lbl Hnd Hl Hin Hn) in Hlv.
        contradiction.
    - intros Hadd. apply in_map_iff in Hadd as (a & Hn & Ha).
      apply assembleLabels_add_internal, gcp_prefix_internal in Ha.
      rewrite Hn in Ha. congruence. }
  apply in_split in Hhanded as (before & after & Hsplit).
  apply (final_label_last _ _ _ _ _ _ _ _ ge before lbl after Hp Hd);
    try assumption.
  intros l Hl _ Hn.
  pose proof (assembled_names_NoDup ge otherInternal Hnd) as Hnd'.
  rewrite Hsplit in Hnd'. unfold labels.names in Hnd'. rewrite map_app in Hnd'.
  simpl in Hnd'. apply List.NoDup_remove_2 in Hnd'. apply Hnd'.
  apply in_or_app. right. rewrite <- Hn. now apply in_map.
Qed.

End OutputLabels.

(** ** Failure and the timestamp *)

Section Outcome.

Context {ext : Externals}.

Implicit Types (now : time.Time) (data : list byte) (other : gmap string string).
Implicit Types (otherInternal : list labels.Label) (ge : GCPLogEntry).
Implicit Types (relabelConfig : list relabel_Config) (e : loki.Entry).

Lemma resolveTimestamp_adopted now now' ge :
  resolveTimestamp now ge true = resolveTimestamp now' ge true.
Proof. reflexivity. Qed.

(** X8: whether the call fails, and with which error, is decided by
    the record and the timestamp policy alone: the caller's labels, the
    base labels, the relabel rules, the line policy and the clock have
    no part in it. *)
Theorem failure_ignores_labels
    now data other otherInternal uts ufl relabelConfig
    now' other' otherInternal' ufl' relabelConfig' :
  (forall err,
     parseGCPLogsEntry now data other otherInternal uts ufl relabelConfig = Err err ->
     parseGCPLogsEntry now' data other' otherInternal' uts ufl' relabelConfig' = Err err) /\
  (forall e,
     parseGCPLogsEntry now data other otherInternal uts ufl relabelConfig = Ok e ->
     exists e',
       parseGCPLogsEntry now' data other' otherInternal' uts ufl' relabelConfig' = Ok e').
Proof.
  unfold parseGCPLogsEntry.
  destruct (json_Unmarshal data) as [ge|msg].
  - destruct uts.
    + rewrite (resolveTimestamp_adopted now now' ge).
      destruct (resolveTimestamp now' ge true) as [ts|err0]; split;
        intros x Hx; try discriminate; eauto.
    + simpl. split; intros x Hx; try discriminate; eauto.
  - split; intros x Hx; try discriminate; eauto.
Qed.

(** X9: when the incoming timestamp is not adopted, a decoded record
    is always returned, stamped with the clock reading, whatever its
    timestamp fields hold; only the decoder can make the call fail. *)
Theorem clock_when_not_adopted
    now data other otherInternal ufl relabelConfig :
  match json_Unmarshal data with
  | Err msg =>
      parseGCPLogsEntry now data other otherInternal false ufl relabelConfig
      = Err (UnmarshalError msg)
  | Ok _ =>
      exists e,
        parseGCPLogsEntry now data other otherInternal false ufl relabelConfig = Ok e /\
        logproto.Timestamp (loki.Entry_ e) = now
  end.
Proof.
  unfold parseGCPLogsEntry.
  destruct (json_Unmarshal data) as [ge|msg]; [|reflexivity].
  simpl. eexists. split; reflexivity.
Qed.

(** X10: the fallback to receiveTimestamp is for an empty timestamp
    only: a timestamp field that is not empty and does not parse ends
    the call with the invalid-timestamp-format error, whatever
    receiveTimestamp holds. *)
Theorem unparsable_timestamp_no_fallback
    now data other otherInternal ufl relabelConfig ge cause :
  json_Unmarshal data = Ok ge ->
  Timestamp ge <> "" ->
  time_Parse_RFC3339 (Timestamp ge) = Err cause ->
  parseGCPLogsEntry now data other otherInternal true ufl relabelConfig
    = Err (InvalidTimestampFormat cause).
Proof.
  intros Hd Hne Hparse.
  rewrite (parse_decoded _ _ _ _ _ _ _ _ Hd).
  unfold resolveTimestamp, selectedTimestamp.
  apply String.eqb_neq in Hne. now rewrite Hne, Hparse.
Qed.

(** X11: a timestamp field that is not empty and parses to a non-zero
    instant gives the record its timestamp; receiveTimestamp is not
    looked at. *)
Theorem timestamp_preferred
    now data other otherInternal ufl relabelConfig ge t :
  json_Unmarshal data = Ok ge ->
  Timestamp ge <> "" ->
  time_Parse_RFC3339 (Timestamp ge) = Ok t ->
  time.IsZero t = false ->
  exists e,
    parseGCPLogsEntry now data other otherInternal true ufl relabelConfig = Ok e /\
    logproto.Timestamp (loki.Entry_ e) = t.
Proof.
  intros Hd Hne Hparse Hnz.
  rewrite (parse_decoded _ _ _ _ _ _ _ _ Hd).
  unfold resolveTimestamp, selectedTimestamp.
  apply String.eqb_neq in Hne. rewrite Hne, Hparse, Hnz.
  eexists. split; reflexivity.
Qed.

(** X12: when the incoming timestamp is adopted, the timestamp of a
    returned record is the instant parsed from the selected field and
    is never the zero instant. *)
Theorem adopted_timestamp_not_zero
    now data other otherInternal ufl relabelConfig e :
  parseGCPLogsEntry now data other otherInternal true ufl relabelConfig = Ok e ->
  time.IsZero (logproto.Timestamp (loki.Entry_ e)) = false /\
  exists ge,
    json_Unmarshal data = Ok ge /\
    time_Parse_RFC3339 (selectedTimestamp ge) = Ok (logproto.Timestamp (loki.Entry_ e)).
Proof.
  intros Hp.
  apply parse_ok_inv in Hp as (ge & ts & Hd & Hts & ->). simpl.
  unfold resolveTimestamp in Hts.
  destruct (time_Parse_RFC3339 (selectedTimestamp ge)) as [t|c] eqn:Hparse;
    [|discriminate].
  destruct (time.IsZero t) eqn:Hz; [discriminate|].
  injection Hts as <-. split; [assumption|]. now exists ge.
Qed.

End Outcome.

(** ** The assembler adds nothing of its own *)

Section AssembledOrigin.

Context {ext : Externals}.

Implicit Types (ge : GCPLogEntry) (otherInternal : list labels.Label).

Lemma Set_add_inv b n v a :
  In a (labels.add (labels.Set_ b n v)) ->
  In a (labels.add b) \/ a = labels.mkLabel n v.
Proof.
  unfold labels.Set_. destruct (String.eqb v "").
  - simpl. intros Hin. apply filter_In in Hin. tauto.
  - destruct (labels.overwrite (labels.add b) n v) as [add'|] eqn:Ho; simpl.
    + apply overwrite_Some in Ho as [_ Ho]. intros Hin.
      destruct (Ho a Hin); auto.
    + rewrite in_app_iff. simpl. intuition.
Qed.

Lemma fold_setResourceLabel_origin ge l : forall b,
  incl l (ResourceLabels (Resource ge)) ->
  (forall a, In a (labels.add b) -> fromEntry ge a) ->
  forall a, In a (labels.add (List.fold_left setResourceLabel l b)) -> fromEntry ge a.
Proof.
  induction l as [|[k v] l IH]; intros b Hl Hb; simpl; [assumption|].
  apply IH.
  - intros kv Hkv. apply Hl. now right.
  - intros a Ha. apply Set_add_inv in Ha as [Ha | ->]; [now apply Hb|].
    right. right. right. left. exists k. simpl. split; [|reflexivity].
    apply Hl. now left.
Qed.

Lemma fold_setEntryLabel_origin ge l : forall b,
  incl l (Labels ge) ->
  (forall a, In a (labels.add b) -> fromEntry ge a) ->
  forall a, In a (labels.add (List.fold_left setEntryLabel l b)) -> fromEntry ge a.
Proof.
  induction l as [|[k v] l IH]; intros b Hl Hb; simpl; [assumption|].
  apply IH.
  - intros kv Hkv. apply Hl. now right.
  - intros a Ha. apply Set_add_inv in Ha as [Ha | ->]; [now apply Hb|].
    right. right. right. right. exists k. simpl. split; [|reflexivity].
    apply Hl. now left.
Qed.

Lemma assembleLabels_add_origin ge otherInternal a :
  In a (labels.add (assembleLabels ge otherInternal)) -> fromEntry ge a.
Proof.
  unfold assembleLabels.
  apply fold_setEntryLabel_origin; [apply incl_refl|].
  apply fold_setResourceLabel_origin; [apply incl_refl|].
  intros a0 Ha.
  apply Set_add_inv in Ha as [Ha | ->]; [|unfold fromEntry; tauto].
  apply Set_add_inv in Ha as [Ha | ->]; [|unfold fromEntry; tauto].
  apply Set_add_inv in Ha as [Ha | ->]; [|unfold fromEntry; tauto].
  simpl in Ha. contradiction.
Qed.

(** X14: a label handed to the relabel engine has a value, and is
    either one of the base labels or a label the assembler set from a
    field or a map entry of the record, under a name that starts with
    "__gcp_". *)
Theorem handed_label_origin ge otherInternal l :
  In l (labels.Labels (assembleLabels ge otherInternal)) ->
  labels.Value l <> "" /\
  (In l otherInternal \/
   (fromEntry ge l /\ strings.HasPrefix (labels.Name l) "__gcp_" = true)).
Proof.
  intros Hin. split.
  - eapply tidy_no_empty_value; [apply assembleLabels_tidy | exact Hin].
  - apply Labels_In in Hin as [Hin | (Hin & _ & Hadd)].
    + right. split.
      * now apply assembleLabels_add_origin in Hin.
      * now apply assembleLabels_add_internal in Hin.
    + left. now rewrite assembleLabels_base in Hin.
Qed.

End AssembledOrigin.

(** ** Instances *)

Lemma mandatory_labels_handed_witness :
  let ge := mkGCPLogEntry "projects/p/logs/syslog" (mkGCPResource "" []) "" "" "INFO" [] "" in
  let base := [labels.mkLabel "__gcp_logname" "stale"] in
  In (labels.mkLabel "__gcp_logname" "projects/p/logs/syslog")
     (labels.Labels (assembleLabels (ext := Samples.ext) ge base)) /\
  (forall l, In l (labels.Labels (assembleLabels (ext := Samples.ext) ge base)) ->
             labels.Name l = "__gcp_logname" ->
             labels.Value l = "projects/p/logs/syslog").
Proof.
  intros ge base.
  apply (proj1 (mandatory_labels_handed (ext := Samples.ext) ge base)).
  discriminate.
Defined.

Lemma map_labels_handed_witness :
  let ge := mkGCPLogEntry "" (mkGCPResource "" [("a.b", ""); ("a_b", "x")]) "" "" ""
              [("k8s-pod/app", "web")] "" in
  In (labels.mkLabel "__gcp_resource_labels_a_b" "x")
     (labels.Labels (assembleLabels (ext := Samples.ext) ge [])) /\
  In (labels.mkLabel "__gcp_labels_k8s_pod_app" "web")
     (labels.Labels (assembleLabels (ext := Samples.ext) ge [])).
Proof.
  intros ge.
  destruct (map_labels_handed (ext := Samples.ext) ge []) as [Hres Hent].
  split.
  - apply (Hres [("a.b", "")] "a_b" "x" []); [reflexivity | discriminate |].
    intros k' v' [].
  - apply (Hent [] "k8s-pod/app" "web" []); [reflexivity | discriminate |].
    intros k' v' [].
Defined.

Lemma handed_names_distinct_sorted_witness :
  let ge := mkGCPLogEntry "projects/p/logs/syslog" (mkGCPResource "" []) "" "" "INFO" [] "" in
  let base := [labels.mkLabel "instance" "i-1"; labels.mkLabel "job" "gcplog"] in
  List.NoDup (labels.names (labels.Labels (assembleLabels (ext := Samples.ext) ge base))) /\
  Sorted labels.byName (labels.Labels (assembleLabels (ext := Samples.ext) ge base)).
Proof.
  intros ge base.
  destruct (handed_names_distinct_sorted (ext := Samples.ext) ge base) as [Hnd Hs].
  split.
  - apply Hnd. repeat constructor; simpl; intuition discriminate.
  - apply Hs. repeat constructor.
Defined.

Lemma output_label_provenance_witness :
  exists ge,
    @json_Unmarshal Samples.ext Samples.logNameSeverity = Ok ge /\
    In (labels.mkLabel "level" "INFO")
       (relabelLabels (ext := Samples.ext) (assembleLabels (ext := Samples.ext) ge [])
          [Fixture.Copy "__gcp_severity" "level"]) /\
    exported (labels.mkLabel "level" "INFO") = true.
Proof.
  apply (output_label_provenance (ext := Samples.ext) Fixture.now
           Samples.logNameSeverity ∅ [] false false
           [Fixture.Copy "__gcp_severity" "level"] _ "level" "INFO" eq_refl);
    reflexivity.
Defined.

Lemma last_exported_label_wins_witness :
  exists e,
    parseGCPLogsEntry (ext := Samples.ext) Fixture.now Samples.logNameSeverity
      ∅ [] false false [Fixture.Copy "__gcp_severity" "level"] = Ok e /\
    loki.Labels e !! "level" = Some "INFO".
Proof.
  eexists. split; [reflexivity|].
  apply (last_exported_label_wins (ext := Samples.ext) Fixture.now
           Samples.logNameSeverity ∅ [] false false
           [Fixture.Copy "__gcp_severity" "level"] _
           (mkGCPLogEntry "projects/p/logs/syslog" (mkGCPResource "" []) "" "" "INFO" [] "")
           [labels.mkLabel "__gcp_logname" "projects/p/logs/syslog";
            labels.mkLabel "__gcp_severity" "INFO"]
           (labels.mkLabel "level" "INFO") [] eq_refl);
    try reflexivity.
  intros l [].
Defined.

Lemma entry_fields_need_rules_witness :
  exists e,
    parseGCPLogsEntry (ext := Samples.ext) Fixture.now Samples.resource
      {["env" := "prod"]} [labels.mkLabel "job" "gcplog"] false false [] = Ok e /\
    loki.Labels e = {["env" := "prod"; "job" := "gcplog"]} /\
    In (labels.mkLabel "job" "gcplog") [labels.mkLabel "job" "gcplog"].
Proof.
  eexists. split; [reflexivity|]. split; [reflexivity|].
  apply (entry_fields_need_rules (ext := Samples.ext) Fixture.now Samples.resource
           {["env" := "prod"]} [labels.mkLabel "job" "gcplog"] false false _
           "job" "gcplog" eq_refl);
    reflexivity.
Defined.

Lemma base_labels_pass_through_witness :
  exists e,
    parseGCPLogsEntry (ext := Samples.ext) Fixture.now Samples.resource
      {["env" := "prod"]}
      [labels.mkLabel "instance" "i-1"; labels.mkLabel "job" "gcplog"]
      false false [] = Ok e /\
    loki.Labels e !! "job" = Some "gcplog".
Proof.
  eexists. split; [reflexivity|].
  apply (base_labels_pass_through (ext := Samples.ext) Fixture.now Samples.resource
           {["env" := "prod"]}
           [labels.mkLabel "instance" "i-1"; labels.mkLabel "job" "gcplog"]
           false false _ (labels.mkLabel "job" "gcplog") eq_refl);
    try reflexivity.
  - repeat constructor; simpl; intuition discriminate.
  - right. now left.
  - discriminate.
Defined.

Lemma failure_ignores_labels_witness :
  parseGCPLogsEntry (ext := Samples.ext) Fixture.now Samples.invalidTimestamp
    {["job" := "gcplog"]} [labels.mkLabel "instance" "i-1"] true true [Fixture.DropAll]
  = Err (InvalidTimestampFormat "parsing time: cannot parse").
Proof.
  apply (proj1 (failure_ignores_labels (ext := Samples.ext)
                  Fixture.now Samples.invalidTimestamp ∅ [] true false []
                  Fixture.now {["job" := "gcplog"]} [labels.mkLabel "instance" "i-1"]
                  true [Fixture.DropAll])).
  reflexivity.
Defined.

Lemma unparsable_timestamp_no_fallback_witness :
  parseGCPLogsEntry (ext := Samples.ext) Fixture.now Samples.invalidTimestamp
    ∅ [] true false []
  = Err (InvalidTimestampFormat "parsing time: cannot parse").
Proof.
  apply (unparsable_timestamp_no_fallback (ext := Samples.ext) Fixture.now
           Samples.invalidTimestamp ∅ [] false []
           (mkGCPLogEntry "" (mkGCPResource "" []) "yesterday" "2024-01-01T00:00:00Z" "" [] ""));
    [reflexivity | discriminate | reflexivity].
Defined.

Lemma timestamp_preferred_witness :
  exists e,
    parseGCPLogsEntry (ext := Samples.ext) Fixture.now Samples.bothTimestamps
      ∅ [] true false [] = Ok e /\
    logproto.Timestamp (loki.Entry_ e) = time.mkTime 63839664000 0.
Proof.
  apply (timestamp_preferred (ext := Samples.ext) Fixture.now
           Samples.bothTimestamps ∅ [] false []
           (mkGCPLogEntry "" (mkGCPResource "" [])
              "2024-01-01T00:00:00Z" "2023-01-01T00:00:00Z" "" [] ""));
    [reflexivity | discriminate | reflexivity | reflexivity].
Defined.

Lemma adopted_timestamp_not_zero_witness :
  exists e,
    parseGCPLogsEntry (ext := Samples.ext) Fixture.now Samples.bothTimestamps
      ∅ [] true false [] = Ok e /\
    time.IsZero (logproto.Timestamp (loki.Entry_ e)) = false.
Proof.
  eexists. split; [reflexivity|].
  apply (adopted_timestamp_not_zero (ext := Samples.ext) Fixture.now
           Samples.bothTimestamps ∅ [] false [] _ eq_refl).
Defined.

Lemma handed_label_origin_witness :
  let ge := mkGCPLogEntry "" (mkGCPResource "gce_instance" [("zone", "us-1")]) "" "" "" [] "" in
  let l := labels.mkLabel "__gcp_resource_labels_zone" "us-1" in
  In l (labels.Labels (assembleLabels (ext := Samples.ext) ge [])) /\
  labels.Value l <> "".
Proof.
  intros ge l.
  assert (Hin : In l (labels.Labels (assembleLabels (ext := Samples.ext) ge []))).
  { simpl. tauto. }
  split; [exact Hin|].
  apply (handed_label_origin (ext := Samples.ext) ge [] l Hin).
Defined.
